(** * md2pdf-plantuml: a shallow embedding of [md2pdf-plantuml.py]

    The Python program turns a Markdown document with embedded PlantUML
    blocks into a PDF.  This development embeds its text transformations
    ([ensure_wrapped], [escape_unescaped_dollars], [split_yaml_header],
    [apply_page_breaks], the rewrite loop of the main workflow) and its two
    effectful drivers ([process_uml], [run_pandoc_with_font_fallback]) and
    proves the properties the specification states about them.

    A Python [str] is a sequence of Unicode code points: it is modelled as a
    list of code points, each one an [N].  The built-in string methods the
    program calls ([lstrip], [startswith], [splitlines], [strip], [lower],
    [in], [replace]) are written out with the behaviour CPython documents. *)

From Stdlib Require Import List NArith ZArith Bool Arith Lia.
From Stdlib Require String Ascii DecimalString.
Import ListNotations.
Import String.StringSyntax.
Delimit Scope string_scope with string.

Set Implicit Arguments.

(** ** Python strings *)

Definition char := N.
Definition pystr := list char.

(** An ASCII literal as a Python string. *)
Definition lit (s : String.string) : pystr :=
  map Ascii.N_of_ascii (String.list_ascii_of_string s).
Arguments lit s%_string.

Definition TAB : char := 9%N.
Definition LF : char := 10%N.
Definition CR : char := 13%N.
Definition SPACE : char := 32%N.
Definition DOLLAR : char := 36%N.
Definition SLASH : char := 47%N.
Definition BACKSLASH : char := 92%N.
Definition BOM : char := 65279%N.          (* U+FEFF *)

Definition char_eqb (a b : char) : bool := N.eqb a b.

Fixpoint pystr_eqb (a b : pystr) : bool :=
  match a, b with
  | [], [] => true
  | x :: a', y :: b' => char_eqb x y && pystr_eqb a' b'
  | _, _ => false
  end.

(** [s.startswith(p)] *)
Fixpoint startswith (p s : pystr) : bool :=
  match p, s with
  | [], _ => true
  | x :: p', y :: s' => char_eqb x y && startswith p' s'
  | _ :: _, [] => false
  end.

(** [needle in hay]: substring test. *)
Fixpoint contains (needle hay : pystr) : bool :=
  startswith needle hay ||
  match hay with
  | [] => false
  | _ :: hay' => contains needle hay'
  end.

(** [s.lstrip(chars)] with a one-character set, and the general
    drop-while it is an instance of. *)
Fixpoint lstrip_by (p : char -> bool) (s : pystr) : pystr :=
  match s with
  | [] => []
  | c :: s' => if p c then lstrip_by p s' else s
  end.

Definition lstrip_char (c : char) (s : pystr) : pystr := lstrip_by (char_eqb c) s.

(** [str.isspace] on one code point: the code points CPython's
    [_PyUnicode_IsWhitespace] accepts. *)
Definition is_whitespace (c : char) : bool :=
  ((9 <=? c) && (c <=? 13) || (28 <=? c) && (c <=? 32)
   || (c =? 133) || (c =? 160) || (c =? 5760)
   || (8192 <=? c) && (c <=? 8202)
   || (c =? 8232) || (c =? 8233) || (c =? 8239) || (c =? 8287)
   || (c =? 12288))%N.

(** [s.strip()] *)
Definition strip (s : pystr) : pystr :=
  rev (lstrip_by is_whitespace (rev (lstrip_by is_whitespace s))).

(** The line boundaries of [str.splitlines]: LF, VT, FF, CR, FS, GS, RS,
    NEL, LS and PS; CR immediately followed by LF is one boundary. *)
Definition is_linebreak (c : char) : bool :=
  ((10 <=? c) && (c <=? 13) || (28 <=? c) && (c <=? 30)
   || (c =? 133) || (c =? 8232) || (c =? 8233))%N.

Definition ends_line (c : char) (rest : pystr) : bool :=
  is_linebreak c &&
  negb (char_eqb c CR && match rest with c' :: _ => char_eqb c' LF | [] => false end).

(** [s.splitlines(keepends=True)]: every line keeps its terminator, a final
    line without terminator is kept, the empty string has no line. *)
Fixpoint splitlines (s : pystr) : list pystr :=
  match s with
  | [] => []
  | c :: rest =>
      if ends_line c rest then [c] :: splitlines rest
      else match splitlines rest with
           | [] => [[c]]
           | l :: ls => (c :: l) :: ls
           end
  end.

(** [s.replace(old, new, 1)]: only the first occurrence is replaced; an
    empty [old] matches at position 0. *)
Fixpoint replace_first (old new s : pystr) : pystr :=
  if startswith old s then new ++ skipn (length old) s
  else match s with
       | [] => []
       | c :: s' => c :: replace_first old new s'
       end.

(** [s.replace(a, b)] for single characters. *)
Definition replace_char (a b : char) (s : pystr) : pystr :=
  map (fun c => if char_eqb c a then b else c) s.

(** [str(i)] for an [int]. *)
Definition str_of_int (i : Z) : pystr :=
  lit (DecimalString.NilZero.string_of_int (Z.to_int i)).

(** ** YAML header splitting (lines 87-107) *)

Definition is_header_close (s : pystr) : bool :=
  pystr_eqb s (lit "---") || pystr_eqb s (lit "...").

(** The [for i, line in enumerate(lines[1:], start=1)] loop: [i] is the index
    of [line] in [lines], [header] the lines appended so far.  The result is
    the final [header] and [body_start_idx]. *)
Fixpoint scan_header (rest : list pystr) (i : nat) (header : list pystr)
  : list pystr * option nat :=
  match rest with
  | [] => (header, None)
  | line :: rest' =>
      if is_header_close (strip line) then (header, Some (i + 1))
      else scan_header rest' (S i) (header ++ [line])
  end.

Definition opens_header (text : pystr) : bool :=
  startswith (lit "---" ++ [LF]) text || startswith (lit "---" ++ [CR; LF]) text.

Definition split_yaml_header (md_text : pystr) : pystr * pystr :=
  let text := lstrip_char BOM md_text in
  if opens_header text then
    let lines := splitlines text in
    match scan_header (tl lines) 1 [] with
    | (header, Some body_start_idx) =>
        let yaml_header :=
          (lit "---" ++ [LF]) ++ concat header ++ nth (body_start_idx - 1) lines [] in
        let body := concat (skipn body_start_idx lines) in
        (yaml_header, body)
    | (_, None) => ([], md_text)
    end
  else ([], md_text).

(** A header is detected when the text opens with a delimiter line and the
    scan finds a closing line. *)
Definition header_detected (md_text : pystr) : bool :=
  let text := lstrip_char BOM md_text in
  opens_header text &&
  match snd (scan_header (tl (splitlines text)) 1 []) with
  | Some _ => true
  | None => false
  end.

(** ** Block normalisation (lines 70-75) *)

(** [str.lower] reads three tables of the Unicode Character Database: the
    full lower-case mapping of a code point, and the properties Cased and
    Case_Ignorable that decide the final-sigma rule. *)
Record UCD : Type := {
  to_lower_full : char -> pystr;
  is_cased : char -> bool;
  is_case_ignorable : char -> bool
}.

Definition ascii_lower (c : char) : char :=
  if ((65 <=? c) && (c <=? 90))%N then (c + 32)%N else c.

Definition CAPITAL_SIGMA : char := 931%N.   (* U+03A3 *)
Definition FINAL_SIGMA : char := 962%N.     (* U+03C2 *)
Definition SMALL_SIGMA : char := 963%N.     (* U+03C3 *)

Section Lower.
Variable ucd : UCD.

(** The first code point that is not case-ignorable, if any. *)
Definition first_not_ignorable (s : pystr) : option char :=
  match lstrip_by (is_case_ignorable ucd) s with
  | [] => None
  | c :: _ => Some c
  end.

(** CPython's [handle_capital_sigma]: [before] is the text before the
    sigma, nearest code point first; [after] is the text after it. *)
Definition handle_capital_sigma (before after : pystr) : char :=
  let final_sigma :=
    match first_not_ignorable before with
    | Some c =>
        is_cased ucd c &&
        match first_not_ignorable after with
        | Some c' => negb (is_cased ucd c')
        | None => true
        end
    | None => false
    end in
  if final_sigma then FINAL_SIGMA else SMALL_SIGMA.

Definition lower_ucs4 (before : pystr) (c : char) (after : pystr) : pystr :=
  if char_eqb c CAPITAL_SIGMA then [handle_capital_sigma before after]
  else to_lower_full ucd c.

(** [do_lower]: [before] holds the code points already read, reversed. *)
Fixpoint do_lower (before : pystr) (s : pystr) : pystr :=
  match s with
  | [] => []
  | c :: rest => lower_ucs4 before c rest ++ do_lower (c :: before) rest
  end.

(** [s.lower()] *)
Definition lower (s : pystr) : pystr := do_lower [] s.

Definition ensure_wrapped (code : pystr) : pystr :=
  let low := lower code in
  if contains (lit "@startuml") low && contains (lit "@enduml") low then code
  else lit "@startuml" ++ [LF] ++ code ++ [LF] ++ lit "@enduml".
End Lower.

(** On ASCII the full lower-case mapping of the Unicode Character Database
    is the ASCII one; this is all the development assumes of the table. *)
Definition lowers_ascii (ucd : UCD) : Prop :=
  forall c, (c < 128)%N -> to_lower_full ucd c = [ascii_lower c].

(** A table that knows the ASCII letters only, and the apostrophe as the one
    case-ignorable character. *)
Definition ascii_ucd : UCD := {|
  to_lower_full := fun c => [ascii_lower c];
  is_cased := fun c => ((65 <=? c) && (c <=? 90) || (97 <=? c) && (c <=? 122))%N;
  is_case_ignorable := fun c => (c =? 39)%N
|}.

(** ** Dollar escaping (lines 77-82) *)

(** [re.sub] of the pattern [(?<!\\)\$] by the template [\\$]: the scan goes left to right over [s];
    the look-behind reads the character of [s] before the current one
    ([prev], absent at position 0). *)
Fixpoint escape_from (prev : option char) (s : pystr) : pystr :=
  match s with
  | [] => []
  | c :: rest =>
      let preceded :=
        match prev with
        | Some p => char_eqb p BACKSLASH
        | None => false
        end in
      (if char_eqb c DOLLAR && negb preceded then [BACKSLASH; DOLLAR] else [c])
        ++ escape_from (Some c) rest
  end.

Definition escape_unescaped_dollars (s : pystr) : pystr := escape_from None s.

(** *** Unescaped dollars, in the words of the specification

    The character before position [i] of a string that is itself preceded by
    [prev]; position [i] holds an unescaped dollar when it holds a dollar and
    the character before it, if there is one, is not a backslash. *)
Definition char_before (prev : option char) (s : pystr) (i : nat) : option char :=
  match i with
  | O => prev
  | S k => nth_error s k
  end.

Definition unescaped_from (prev : option char) (s : pystr) (i : nat) : Prop :=
  nth_error s i = Some DOLLAR /\ char_before prev s i <> Some BACKSLASH.

Definition unescaped_at (s : pystr) (i : nat) : Prop := unescaped_from None s i.

(** ** Page breaks (lines 85, 109-116) *)

Definition is_blank (c : char) : bool := char_eqb c SPACE || char_eqb c TAB.

(** The greedy run of [[ \t]*]. *)
Fixpoint blank_run (s : pystr) : nat :=
  match s with
  | c :: s' => if is_blank c then S (blank_run s') else 0
  | [] => 0
  end.

(** [$] under [re.MULTILINE]: the end of the string or just before a LF. *)
Definition at_line_end (s : pystr) : bool :=
  match s with
  | [] => true
  | c :: _ => char_eqb c LF
  end.

(** [^] under [re.MULTILINE]: the start of the string or just after a LF. *)
Definition at_line_start (prev : option char) : bool :=
  match prev with
  | None => true
  | Some c => char_eqb c LF
  end.

(** The length of the match of [[ \t]*-{3}[ \t]*$] at the head of [s], if
    there is one.  A blank is never a hyphen and a line end never follows a
    blank the second run could still take, so the greedy runs are the only
    candidates. *)
Definition match_pagebreak (s : pystr) : option nat :=
  let n1 := blank_run s in
  let s1 := skipn n1 s in
  if startswith (lit "---") s1 then
    let s2 := skipn 3 s1 in
    let n2 := blank_run s2 in
    if at_line_end (skipn n2 s2) then Some (n1 + 3 + n2) else None
  else None.

(** The replacement template: a line feed, [\newpage], a line feed. *)
Definition NEWPAGE : pystr := [LF] ++ [BACKSLASH] ++ lit "newpage" ++ [LF].

(** [RE_PAGEBREAK_LINE.sub(NEWPAGE, s)]: [prev] is the character before the
    current position, [skip] the number of characters of the last match
    still to pass (the search resumes at the end of a match). *)
Fixpoint sub_pagebreak (prev : option char) (skip : nat) (s : pystr) : pystr :=
  match s with
  | [] => []
  | c :: rest =>
      match skip with
      | S k => sub_pagebreak (Some c) k rest
      | O =>
          if at_line_start prev then
            match match_pagebreak s with
            | Some n => NEWPAGE ++ sub_pagebreak (Some c) (n - 1) rest
            | None => c :: sub_pagebreak (Some c) 0 rest
            end
          else c :: sub_pagebreak (Some c) 0 rest
      end
  end.

Definition apply_page_breaks (md_text : pystr) : pystr :=
  let '(yaml_header, body) := split_yaml_header md_text in
  let body := sub_pagebreak None 0 body in
  yaml_header ++ body.

(** *** Page-break lines, in the words of the specification

    The lines of a text are what lies between its line feeds ([s.split] at
    LF, [join] to put them back).  A page-break line is three hyphens with
    nothing but spaces and tabs before and after. *)
Fixpoint split_lf (s : pystr) : list pystr :=
  match s with
  | [] => [[]]
  | c :: rest =>
      if char_eqb c LF then [] :: split_lf rest
      else match split_lf rest with
           | l :: ls => (c :: l) :: ls
           | [] => [[c]]
           end
  end.

Fixpoint join_lf (ls : list pystr) : pystr :=
  match ls with
  | [] => []
  | l :: ls' =>
      match ls' with
      | [] => l
      | _ :: _ => l ++ LF :: join_lf ls'
      end
  end.

Definition is_pagebreak_line (l : pystr) : bool :=
  let m := lstrip_by is_blank l in
  startswith (lit "---") m && forallb is_blank (skipn 3 m).

Definition convert_line (l : pystr) : pystr :=
  if is_pagebreak_line l then NEWPAGE else l.

(** The header region of a text: its opening delimiter line and the lines
    after it, up to and including the first one that strips to a closing
    delimiter; [None] when the text does not open a header or no line closes
    it. *)
Fixpoint upto_close (lines : list pystr) : option pystr :=
  match lines with
  | [] => None
  | l :: rest =>
      if is_header_close (strip l) then Some l
      else match upto_close rest with
           | Some h => Some (l ++ h)
           | None => None
           end
  end.

Definition header_region (text : pystr) : option pystr :=
  if opens_header text then
    match splitlines text with
    | opening :: rest =>
        match upto_close rest with
        | Some h => Some (opening ++ h)
        | None => None
        end
    | [] => None
    end
  else None.

(** ** The outside world

    The program talks to the file system, to the command search path and to
    two external programs (the PlantUML renderer and pandoc).  [W] is the
    state of that world; every operation the program calls on it is a field
    of [Env].  An operation that can raise returns [Raised e]. *)

(** A [pathlib.Path] is modelled by its [str()]. *)
Definition Path := pystr.

(** An instance of [Exception]; [exn_message] is its [str()]. *)
Record Exn : Type := { exn_message : pystr }.

Inductive Outcome (A : Type) : Type :=
| Normal (a : A)
| Raised (e : Exn).
Arguments Normal {A} a.
Arguments Raised {A} e.

(** [subprocess.CompletedProcess] with [capture_output=True, text=True]. *)
Record CompletedProcess : Type := {
  returncode : Z;
  stdout : pystr;
  stderr : pystr
}.

Record Env (W : Type) : Type := {
  sep : char;                                        (* the path flavour's separator *)
  path_of_str : pystr -> Path;                       (* Path(s) *)
  joinpath : Path -> pystr -> Path;                  (* p / name *)
  path_exists : Path -> W -> Outcome bool;           (* p.exists() *)
  path_write_text : Path -> pystr -> W -> Outcome unit * W;
  subprocess_run : list pystr -> W -> Outcome CompletedProcess * W;
  shutil_which : pystr -> W -> option pystr;
  format_exc : Exn -> pystr                          (* traceback.format_exc() *)
}.

(** What the program has done so far: the world, the commands it has
    launched (oldest first) and the lines it has logged. *)
Record State (W : Type) : Type := {
  world : W;
  calls : list (list pystr);
  log : list pystr
}.

(** Computations that thread the state and may raise. *)
Definition M (W A : Type) : Type := State W -> Outcome A * State W.

Definition ret {W A} (a : A) : M W A := fun st => (Normal a, st).

Definition bind {W A B} (m : M W A) (f : A -> M W B) : M W B :=
  fun st =>
    match m st with
    | (Normal a, st') => f a st'
    | (Raised e, st') => (Raised e, st')
    end.

(** [try: m  except Exception as e: h e] *)
Definition try_except {W A} (m : M W A) (h : Exn -> M W A) : M W A :=
  fun st =>
    match m st with
    | (Normal a, st') => (Normal a, st')
    | (Raised e, st') => h e st'
    end.

(** Two states with the same world and the same calls: they differ by log
    lines only. *)
Definition same_world {W : Type} (st st' : State W) : Prop :=
  world st' = world st /\ calls st' = calls st.

Declare Scope py_scope.
Delimit Scope py_scope with py.
Notation "x <- m ;; k" := (bind m (fun x => k))
  (at level 61, m at next level, right associativity) : py_scope.
Notation "m ;; k" := (bind m (fun _ => k))
  (at level 61, right associativity) : py_scope.

(** [Path.as_posix]: [str(self).replace(sep, '/')]. *)
Definition as_posix (sep : char) (p : Path) : pystr := replace_char sep SLASH p.

(** The third component of a render result is a [Path] or a [str]. *)
Inductive Info : Type :=
| InfoPath (p : Path)
| InfoText (s : pystr).

Definition RenderResult : Type := Z * bool * Info.

Definition truthy (s : pystr) : bool :=
  match s with
  | [] => false
  | _ :: _ => true
  end.

Inductive Kind : Type := Fenced | StartEnd.

(** One record of [find_uml_blocks]. *)
Record Block : Type := {
  span : nat * nat;
  original : pystr;
  code : pystr;
  kind : Kind
}.

Section Effects.
Variable W : Type.
Variable env : Env W.
Variable ucd : UCD.
Local Open Scope py_scope.

(** [log_print] over a console and a log file that accept every line: the
    line is recorded.  The sink that can refuse a line, and what
    [process_uml] does then, is [log_print_io] below. *)
Definition log_print (message : pystr) : M W unit :=
  fun st => (Normal tt, {| world := world st; calls := calls st;
                           log := log st ++ [message] |}).

Definition exists_ (p : Path) : M W bool :=
  fun st => (path_exists env p (world st), st).

Definition write_text (p : Path) (data : pystr) : M W unit :=
  fun st =>
    let '(r, w) := path_write_text env p data (world st) in
    (r, {| world := w; calls := calls st; log := log st |}).

(** [subprocess.run(cmd, capture_output=True, text=True)] *)
Definition run (cmd : list pystr) : M W CompletedProcess :=
  fun st =>
    let '(r, w) := subprocess_run env cmd (world st) in
    (r, {| world := w; calls := calls st ++ [cmd]; log := log st |}).

Definition which (exe : pystr) : M W (option pystr) :=
  fun st => (Normal (shutil_which env exe (world st)), st).

Definition when (b : bool) (m : M W unit) : M W unit :=
  if b then m else ret tt.

(** *** PlantUML rendering (lines 174-215) *)

Definition plantuml_cmd (plantuml_jar puml_file : Path) : list pystr :=
  [lit "java"; lit "-jar"; plantuml_jar; lit "-tpng"; puml_file].

Definition process_uml (args : Z * pystr * Path * Path) : M W RenderResult :=
  let '(i, code_text, plantuml_jar, output_dir) := args in
  let puml_file := joinpath env output_dir (lit "diagram" ++ str_of_int i ++ lit ".puml") in
  let png_file := joinpath env output_dir (lit "diagram" ++ str_of_int i ++ lit ".png") in
  try_except
    (present <- exists_ png_file ;;
     if present then
       log_print ([9197%N] ++ lit " Diagram " ++ str_of_int i
                   ++ lit " already exists, skipping: " ++ png_file) ;;
       ret (i, true, InfoPath png_file)
     else
       let uml_source := ensure_wrapped ucd code_text in
       write_text puml_file uml_source ;;
       result <- run (plantuml_cmd plantuml_jar puml_file) ;;
       log_print ([LF] ++ lit "--- PlantUML Diagram " ++ str_of_int i ++ lit " ---") ;;
       when (truthy (strip (stdout result))) (log_print (stdout result)) ;;
       when (truthy (strip (stderr result))) (log_print (stderr result)) ;;
       if negb (returncode result =? 0)%Z then
         log_print ([10060%N] ++ lit " Error generating diagram " ++ str_of_int i
                     ++ lit " (exit code " ++ str_of_int (returncode result) ++ lit ")") ;;
         ret (i, false, InfoText (strip (stderr result)))
       else
         log_print ([9989%N] ++ lit " Diagram " ++ str_of_int i
                     ++ lit " generated: " ++ png_file) ;;
         ret (i, true, InfoPath png_file))
    (fun e =>
       let tb := format_exc env e in
       log_print ([10060%N] ++ lit " Exception generating diagram " ++ str_of_int i
                   ++ lit ": " ++ exn_message e ++ [LF] ++ tb) ;;
       ret (i, false, InfoText (exn_message e))).

(** *** Pandoc with font fallback (lines 119-171) *)

Definition font_pairs : list (pystr * pystr) :=
  [ (lit "Times New Roman", lit "Consolas");
    (lit "Cambria", lit "Consolas");
    (lit "Calibri", lit "Consolas");
    (lit "Arial", lit "Consolas");
    (lit "Times New Roman", lit "Lucida Console");
    (lit "Times New Roman", lit "Courier New");
    (lit "Times New Roman", lit "Noto Sans Mono");
    (lit "Times New Roman", lit "DejaVu Sans Mono") ].

Section Pandoc.
Variables (md_path pdf_path : Path) (pandoc_exe : pystr).

Definition font_cmd (fp : pystr * pystr) : list pystr :=
  let '(mainfont, monofont) := fp in
  [ pandoc_exe; md_path; lit "-o"; pdf_path; lit "--pdf-engine=xelatex";
    lit "-V"; lit "mainfont=" ++ mainfont;
    lit "-V"; lit "monofont=" ++ monofont ].

Definition default_cmd : list pystr :=
  [ pandoc_exe; md_path; lit "-o"; pdf_path; lit "--pdf-engine=xelatex" ].

(** The [for mainfont, monofont in font_pairs] loop; [Some rc] when the
    body returned [rc], [None] when the loop ran to its end. *)
Fixpoint font_loop (pairs : list (pystr * pystr)) : M W (option Z) :=
  match pairs with
  | [] => ret None
  | fp :: rest =>
      log_print ([128292%N] ++ lit " Trying fonts -> mainfont='" ++ fst fp
                  ++ lit "', monofont='" ++ snd fp ++ lit "'") ;;
      result <- run (font_cmd fp) ;;
      when (truthy (strip (stdout result))) (log_print (stdout result)) ;;
      when (truthy (strip (stderr result))) (log_print (stderr result)) ;;
      ok <- (if (returncode result =? 0)%Z then exists_ pdf_path else ret false) ;;
      if ok then
        log_print ([9989%N] ++ lit " PDF successfully generated with fonts: "
                    ++ fst fp ++ lit " / " ++ snd fp) ;;
        ret (Some 0%Z)
      else
        log_print ([9888%N; 65039%N] ++ lit " Pandoc attempt failed with fonts: "
                    ++ fst fp ++ lit " / " ++ snd fp) ;;
        font_loop rest
  end.

Definition run_pandoc_with_font_fallback : M W Z :=
  found <- which pandoc_exe ;;
  if negb (match found with Some p => truthy p | None => false end) then
    log_print ([10060%N] ++ lit " '" ++ pandoc_exe ++ lit "' not found in PATH.") ;;
    ret 127%Z
  else
    returned <- font_loop font_pairs ;;
    match returned with
    | Some rc => ret rc
    | None =>
        log_print ([129666%N] ++ lit " Falling back to Pandoc defaults (no explicit fonts).") ;;
        result <- run default_cmd ;;
        when (truthy (strip (stdout result))) (log_print (stdout result)) ;;
        when (truthy (strip (stderr result))) (log_print (stderr result)) ;;
        ret (returncode result)
    end.
End Pandoc.

(** *** The rewrite loop of the main workflow (lines 249-259) *)

(** [Path(info)] *)
Definition info_path (info : Info) : Path :=
  match info with
  | InfoPath p => p
  | InfoText s => path_of_str env s
  end.

(** [f"{info}"] *)
Definition info_str (info : Info) : pystr :=
  match info with
  | InfoPath p => p
  | InfoText s => s
  end.

Definition replacement (r : RenderResult) : pystr :=
  let '(i, success, info) := r in
  if success then
    let safe_url := as_posix (sep env) (info_path info) in
    lit "![Diagram " ++ str_of_int i ++ lit "](" ++ safe_url ++ lit "){ width=100% }"
  else
    lit "**Diagram " ++ str_of_int i ++ lit " failed to generate: "
      ++ info_str info ++ lit "**".

(** [for (i, success, info), blk in zip(results, blocks): ...] *)
Fixpoint rewrite_loop (pairs : list (RenderResult * Block)) (md_text : pystr) : pystr :=
  match pairs with
  | [] => md_text
  | (r, blk) :: rest =>
      rewrite_loop rest (replace_first (original blk) (replacement r) md_text)
  end.

Definition rewrite_blocks (results : list RenderResult) (blocks : list Block)
    (md_text : pystr) : pystr :=
  rewrite_loop (combine results blocks) md_text.
End Effects.

(** *** A log sink that can refuse a line (lines 22-27)

    [log_print] prints the line and then opens the log file and appends the
    line to it; the [print] and the [open] can raise (a console that cannot
    encode the line, a log file that cannot be opened).
    [log_raises message w] is the exception, if any, that logging [message]
    raises in the world [w]; a line that is refused is not recorded.
    [log_print] above is the sink that accepts every line. *)
Section FailingLog.
Variable W : Type.
Variable env : Env W.
Variable ucd : UCD.
Variable log_raises : pystr -> W -> option Exn.
Local Open Scope py_scope.

Definition log_print_io (message : pystr) : M W unit :=
  fun st =>
    match log_raises message (world st) with
    | Some e => (Raised e, st)
    | None => (Normal tt, {| world := world st; calls := calls st;
                             log := log st ++ [message] |})
    end.

(** [process_uml] (lines 174-215) over that sink: a line refused inside the
    [try] is caught by the handler like any other exception; a line refused
    inside the handler (line 214) is not caught by anything. *)
Definition process_uml_io (args : Z * pystr * Path * Path) : M W RenderResult :=
  let '(i, code_text, plantuml_jar, output_dir) := args in
  let puml_file := joinpath env output_dir (lit "diagram" ++ str_of_int i ++ lit ".puml") in
  let png_file := joinpath env output_dir (lit "diagram" ++ str_of_int i ++ lit ".png") in
  try_except
    (present <- exists_ env png_file ;;
     if present then
       log_print_io ([9197%N] ++ lit " Diagram " ++ str_of_int i
                      ++ lit " already exists, skipping: " ++ png_file) ;;
       ret (i, true, InfoPath png_file)
     else
       let uml_source := ensure_wrapped ucd code_text in
       write_text env puml_file uml_source ;;
       result <- run env (plantuml_cmd plantuml_jar puml_file) ;;
       log_print_io ([LF] ++ lit "--- PlantUML Diagram " ++ str_of_int i ++ lit " ---") ;;
       when (truthy (strip (stdout result))) (log_print_io (stdout result)) ;;
       when (truthy (strip (stderr result))) (log_print_io (stderr result)) ;;
       if negb (returncode result =? 0)%Z then
         log_print_io ([10060%N] ++ lit " Error generating diagram " ++ str_of_int i
                        ++ lit " (exit code " ++ str_of_int (returncode result) ++ lit ")") ;;
         ret (i, false, InfoText (strip (stderr result)))
       else
         log_print_io ([9989%N] ++ lit " Diagram " ++ str_of_int i
                        ++ lit " generated: " ++ png_file) ;;
         ret (i, true, InfoPath png_file))
    (fun e =>
       let tb := format_exc env e in
       log_print_io ([10060%N] ++ lit " Exception generating diagram " ++ str_of_int i
                      ++ lit ": " ++ exn_message e ++ [LF] ++ tb) ;;
       ret (i, false, InfoText (exn_message e))).
End FailingLog.


(** *** The rewriter, in the words of the specification

    [old] occurs in [s]; its first occurrence splits [s] into what comes
    before and what comes after. *)
Definition occurs (old s : pystr) : Prop :=
  exists pre post, s = pre ++ old ++ post.

Definition first_occurrence (old s pre post : pystr) : Prop :=
  s = pre ++ old ++ post /\
  forall k, k < length pre -> startswith old (skipn k s) = false.

(** The image reference for a rendered diagram and the notice for a failed
    one. *)
Definition image_reference (sep : char) (i : Z) (path : Path) : pystr :=
  lit "![Diagram " ++ str_of_int i ++ lit "]("
    ++ replace_char sep SLASH path ++ lit "){ width=100% }".

Definition failure_notice (i : Z) (error_text : pystr) : pystr :=
  lit "**Diagram " ++ str_of_int i ++ lit " failed to generate: " ++ error_text ++ lit "**".

(** One block is rewritten: the first occurrence of its original text in the
    working document gives way to the image reference or to the notice; a
    block whose text does not occur leaves the document as it is. *)
Inductive rewrite_step {W : Type} (env : Env W)
  : pystr -> RenderResult * Block -> pystr -> Prop :=
| step_success (doc : pystr) (i : Z) (info : Info) (blk : Block) (pre post : pystr) :
    first_occurrence (original blk) doc pre post ->
    rewrite_step env doc ((i, true, info), blk)
      (pre ++ image_reference (sep env) i (info_path env info) ++ post)
| step_failure (doc : pystr) (i : Z) (info : Info) (blk : Block) (pre post : pystr) :
    first_occurrence (original blk) doc pre post ->
    rewrite_step env doc ((i, false, info), blk)
      (pre ++ failure_notice i (info_str info) ++ post)
| step_absent (doc : pystr) (r : RenderResult) (blk : Block) :
    ~ occurs (original blk) doc ->
    rewrite_step env doc (r, blk) doc.

(** The blocks are rewritten one after the other, in list order, each one in
    the document the earlier ones left. *)
Inductive rewrites {W : Type} (env : Env W)
  : pystr -> list (RenderResult * Block) -> pystr -> Prop :=
| rewrites_nil (doc : pystr) : rewrites env doc [] doc
| rewrites_cons (doc doc' doc'' : pystr) (rb : RenderResult * Block)
    (rest : list (RenderResult * Block)) :
    rewrite_step env doc rb doc' ->
    rewrites env doc' rest doc'' ->
    rewrites env doc (rb :: rest) doc''.

(** *** The conversion driver, in the words of the specification

    The font pairs are tried in order, starting in world [w].  An attempt
    succeeds when the converter exits with status zero and the output file
    is then present; the first success ends the attempts with status 0.  The
    commands launched are listed, oldest first; the status is [None] when
    every pair has been tried without success. *)
Inductive font_attempts {W : Type} (env : Env W) (md_path pdf_path : Path) (pandoc_exe : pystr)
  : list (pystr * pystr) -> W -> list (list pystr) -> option Z -> W -> Prop :=
| attempts_exhausted (w : W) :
    font_attempts env md_path pdf_path pandoc_exe [] w [] None w
| attempts_success (fp : pystr * pystr) (rest : list (pystr * pystr))
    (w w' : W) (cp : CompletedProcess) :
    subprocess_run env (font_cmd md_path pdf_path pandoc_exe fp) w = (Normal cp, w') ->
    returncode cp = 0%Z ->
    path_exists env pdf_path w' = Normal true ->
    font_attempts env md_path pdf_path pandoc_exe (fp :: rest) w
      [font_cmd md_path pdf_path pandoc_exe fp] (Some 0%Z) w'
| attempts_failure (fp : pystr * pystr) (rest : list (pystr * pystr))
    (w w' w'' : W) (cp : CompletedProcess) (cmds : list (list pystr)) (r : option Z) :
    subprocess_run env (font_cmd md_path pdf_path pandoc_exe fp) w = (Normal cp, w') ->
    returncode cp <> 0%Z \/ path_exists env pdf_path w' = Normal false ->
    font_attempts env md_path pdf_path pandoc_exe rest w' cmds r w'' ->
    font_attempts env md_path pdf_path pandoc_exe (fp :: rest) w
      (font_cmd md_path pdf_path pandoc_exe fp :: cmds) r w''.

(** The whole fallback: either an attempt with fonts succeeded, or all of
    them failed and one more invocation, without font overrides, gives the
    status. *)
Inductive fallback {W : Type} (env : Env W) (md_path pdf_path : Path) (pandoc_exe : pystr)
  : W -> list (list pystr) -> Z -> W -> Prop :=
| fallback_fonts (w w' : W) (cmds : list (list pystr)) :
    font_attempts env md_path pdf_path pandoc_exe font_pairs w cmds (Some 0%Z) w' ->
    fallback env md_path pdf_path pandoc_exe w cmds 0%Z w'
| fallback_defaults (w w' w'' : W) (cmds : list (list pystr)) (cp : CompletedProcess) :
    font_attempts env md_path pdf_path pandoc_exe font_pairs w cmds None w' ->
    subprocess_run env (default_cmd md_path pdf_path pandoc_exe) w' = (Normal cp, w'') ->
    fallback env md_path pdf_path pandoc_exe w
      (cmds ++ [default_cmd md_path pdf_path pandoc_exe]) (returncode cp) w''.

(** Neither looking for a file nor launching a process raises in [env]. *)
Definition never_raises {W : Type} (env : Env W) : Prop :=
  (forall p w, exists b, path_exists env p w = Normal b) /\
  (forall cmd w, exists cp w', subprocess_run env cmd w = (Normal cp, w')).

(** ** A small world for examples

    The files on disk, whether the disk can be written, whether the
    renderer accepts its input, the one font that is installed and whether
    pandoc is on the search path. *)
Record Desk : Type := {
  files : list Path;
  writable : bool;
  renderer_ok : bool;
  installed_font : pystr;
  pandoc_on_path : bool
}.

Definition desk_add (p : Path) (d : Desk) : Desk :=
  {| files := p :: files d; writable := writable d; renderer_ok := renderer_ok d;
     installed_font := installed_font d; pandoc_on_path := pandoc_on_path d |}.

Definition desk_run (cmd : list pystr) (d : Desk) : Outcome CompletedProcess * Desk :=
  if pystr_eqb (hd [] cmd) (lit "java") then
    if renderer_ok d then
      (Normal {| returncode := 0; stdout := []; stderr := [] |}, d)
    else
      (Normal {| returncode := 200; stdout := [];
                 stderr := lit "Error line 2 in file" ++ [LF] |}, d)
  else if existsb (pystr_eqb (lit "mainfont=" ++ installed_font d)) cmd then
    (Normal {| returncode := 0; stdout := []; stderr := [] |}, desk_add (nth 3 cmd []) d)
  else
    (Normal {| returncode := 43; stdout := [];
               stderr := lit "! Package fontspec Error" ++ [LF] |}, d).

Definition desk_env : Env Desk := {|
  sep := BACKSLASH;
  path_of_str := fun s => replace_char SLASH BACKSLASH s;
  joinpath := fun p name => p ++ [BACKSLASH] ++ name;
  path_exists := fun p d => Normal (existsb (pystr_eqb p) (files d));
  path_write_text := fun p data d =>
    if writable d then (Normal tt, desk_add p d)
    else (Raised {| exn_message := lit "[Errno 13] Permission denied" |}, d);
  subprocess_run := desk_run;
  shutil_which := fun exe d =>
    if pandoc_on_path d then Some (lit "C:\Program Files\Pandoc\" ++ exe) else None;
  format_exc := fun e => lit "Traceback (most recent call last):" ++ [LF] ++ exn_message e
|}.

Definition desk_start (d : Desk) : State Desk :=
  {| world := d; calls := []; log := [] |}.

Definition desk (font : String.string) (on_path can_write good_uml : bool)
    (present : list Path) : Desk :=
  {| files := present; writable := can_write; renderer_ok := good_uml;
     installed_font := lit font; pandoc_on_path := on_path |}.
Arguments desk font%_string on_path can_write good_uml present.

(** Two log sinks for that world: one that accepts every line, and one whose
    log file is a directory, so that every [open] raises. *)
Definition log_accepts (message : pystr) (d : Desk) : option Exn := None.

Definition log_is_directory (message : pystr) (d : Desk) : option Exn :=
  Some {| exn_message := lit "[Errno 21] Is a directory: 'conversion.log'" |}.

(** ** Sample documents *)

(** A document with a byte-order mark, a header and a body. *)
Definition doc_with_bom : pystr :=
  [BOM] ++ lit "---" ++ [LF] ++ lit "title: x" ++ [LF] ++ lit "---" ++ [LF] ++ lit "body" ++ [LF].

(** The same header and body with CR LF line ends and no mark. *)
Definition doc_crlf : pystr :=
  lit "---" ++ [CR; LF] ++ lit "title: x" ++ [CR; LF] ++ lit "---" ++ [CR; LF]
    ++ lit "body" ++ [CR; LF].

(** A document that opens a header and never closes it, with a mark. *)
Definition doc_unclosed_bom : pystr :=
  [BOM] ++ lit "---" ++ [LF] ++ lit "title: x" ++ [LF] ++ lit "body" ++ [LF].

(** Two diagrams, the second of which is a copy of the first. *)
Definition uml_block : Block := {|
  span := (0, 0);
  original := lit "@startuml A -> B @enduml";
  code := lit "@startuml A -> B @enduml";
  kind := StartEnd
|}.

Definition doc_two_blocks : pystr :=
  lit "x " ++ original uml_block ++ lit " y " ++ original uml_block ++ lit " z".

From Stdlib Require Import Permutation Sorted.

(** ** Regular expressions of the block locator (lines 30-31)

    [re] matches by backtracking.  The two patterns of the program use
    single characters, greedy and lazy stars over one character class, a word
    boundary and groups; a pattern is a list of such atoms.  Case-insensitive
    matching and the word boundary read two tables of the Unicode Character
    Database: the simple lower-case mapping and the alphanumeric property. *)
Record ReTables : Type := {
  sre_lower : char -> char;
  sre_is_alnum : char -> bool
}.

Inductive Atom : Type :=
| Chr (p : char -> bool)          (* one character that [p] accepts *)
| StarGreedy (p : char -> bool)   (* [p*] *)
| StarLazy (p : char -> bool)     (* [p*?] *)
| WordBoundary                    (* [\b] *)
| Mark.                           (* a parenthesis: the position is recorded *)

Definition Regex : Type := list Atom.

(** What is left to match: the character before the position, the text from
    the position on, the position, the marks so far; the result is the end of
    the match and its marks. *)
Definition Cont : Type :=
  option char -> pystr -> nat -> list nat -> option (nat * list nat).

Definition accept : Cont := fun _ _ pos marks => Some (pos, marks).

(** Greedy: as many characters as possible first, one fewer on failure. *)
Fixpoint star_greedy (p : char -> bool) (k : Cont)
    (prev : option char) (s : pystr) (pos : nat) (marks : list nat)
  : option (nat * list nat) :=
  match s with
  | c :: s' =>
      if p c then
        match star_greedy p k (Some c) s' (S pos) marks with
        | Some r => Some r
        | None => k prev s pos marks
        end
      else k prev s pos marks
  | [] => k prev s pos marks
  end.

(** Lazy: as few characters as possible first, one more on failure. *)
Fixpoint star_lazy (p : char -> bool) (k : Cont)
    (prev : option char) (s : pystr) (pos : nat) (marks : list nat)
  : option (nat * list nat) :=
  match k prev s pos marks with
  | Some r => Some r
  | None =>
      match s with
      | c :: s' => if p c then star_lazy p k (Some c) s' (S pos) marks else None
      | [] => None
      end
  end.

Section Matcher.
Variable tb : ReTables.

(** [\w]: alphanumeric or underscore. *)
Definition sre_is_word (c : char) : bool := sre_is_alnum tb c || char_eqb c 95%N.

(** [\b]: exactly one of the two neighbours is a word character. *)
Definition at_boundary (prev : option char) (s : pystr) : bool :=
  xorb (match prev with Some c => sre_is_word c | None => false end)
       (match s with c :: _ => sre_is_word c | [] => false end).

Fixpoint matcher (r : Regex) (k : Cont) : Cont :=
  match r with
  | [] => k
  | Chr p :: r' =>
      fun prev s pos marks =>
        match s with
        | c :: s' => if p c then matcher r' k (Some c) s' (S pos) marks else None
        | [] => None
        end
  | StarGreedy p :: r' => star_greedy p (matcher r' k)
  | StarLazy p :: r' => star_lazy p (matcher r' k)
  | WordBoundary :: r' =>
      fun prev s pos marks =>
        if at_boundary prev s then matcher r' k prev s pos marks else None
  | Mark :: r' =>
      fun prev s pos marks => matcher r' k prev s pos (marks ++ [pos])
  end.

(** A match object: [start()], [end()] and the group boundaries. *)
Record Match : Type := {
  m_start : nat;
  m_end : nat;
  m_marks : list nat
}.

Definition match_at (r : Regex) (prev : option char) (s : pystr) (pos : nat)
  : option Match :=
  match matcher r accept prev s pos [] with
  | Some (e, marks) => Some {| m_start := pos; m_end := e; m_marks := marks |}
  | None => None
  end.

(** [pattern.finditer(text)]: the leftmost match from each position on, the
    search resuming at the end of the match ([skip] counts the characters of
    the last match still to pass). *)
Fixpoint finditer_from (r : Regex) (prev : option char) (pos skip : nat) (s : pystr)
  : list Match :=
  match s with
  | [] =>
      match skip with
      | O => match match_at r prev [] pos with Some m => [m] | None => [] end
      | S _ => []
      end
  | c :: s' =>
      match skip with
      | S k => finditer_from r (Some c) (S pos) k s'
      | O =>
          match match_at r prev s pos with
          | Some m => m :: finditer_from r (Some c) (S pos) (m_end m - pos - 1) s'
          | None => finditer_from r (Some c) (S pos) 0 s'
          end
      end
  end.

Definition finditer (r : Regex) (text : pystr) : list Match :=
  finditer_from r None 0 0 text.

(** The companions of the ASCII letters [i] and [s] in the table of
    equivalences that case-insensitive matching adds to lower-casing: the
    dotless i and the long s. *)
Definition sre_fixes (lo : char) : list char :=
  if char_eqb lo 105%N then [305%N]
  else if char_eqb lo 115%N then [383%N]
  else [].

(** A lower-case ASCII letter of a pattern under [re.IGNORECASE]. *)
Definition ci_char (lo : char) (c : char) : bool :=
  char_eqb (sre_lower tb c) lo || existsb (char_eqb (sre_lower tb c)) (sre_fixes lo).

Definition lit_re (s : pystr) : Regex := map (fun c => Chr (char_eqb c)) s.
Definition ci_re (s : pystr) : Regex := map (fun c => Chr (ci_char c)) s.

Definition not_lf (c : char) : bool := negb (char_eqb c LF).
Definition any_char (c : char) : bool := true.

(** The pattern of line 30, with IGNORECASE and DOTALL: three backticks,
    white space, [plantuml], the rest of the line; the code, lazily; a line
    feed and three backticks. *)
Definition RE_FENCED : Regex :=
  [Mark] ++ lit_re (lit "```") ++ [StarGreedy is_whitespace] ++ ci_re (lit "plantuml")
    ++ [StarGreedy not_lf; Chr (char_eqb LF); Mark]
    ++ [Mark; StarLazy any_char; Mark]
    ++ [Mark; Chr (char_eqb LF)] ++ lit_re (lit "```") ++ [Mark].

(** The pattern of line 31, with IGNORECASE and DOTALL. *)
Definition RE_STARTEND : Regex :=
  [Mark; Chr (char_eqb 64%N)] ++ ci_re (lit "startuml") ++ [WordBoundary; StarLazy any_char]
    ++ [Chr (char_eqb 64%N)] ++ ci_re (lit "enduml") ++ [Mark].

(** [text[a:b]] *)
Definition slice (a b : nat) (text : pystr) : pystr := firstn (b - a) (skipn a text).

(** [m.start(n)], [m.end(n)] and [m.group(n)] for a group [n >= 1]. *)
Definition group_start (n : nat) (m : Match) : nat := nth (2 * n - 2) (m_marks m) 0.
Definition group_end (n : nat) (m : Match) : nat := nth (2 * n - 1) (m_marks m) 0.
Definition group (n : nat) (m : Match) (text : pystr) : pystr :=
  slice (group_start n m) (group_end n m) text.

(** [matches.sort(key=lambda d: d["span"][0])]: the sort is stable. *)
Fixpoint insert_by_start (b : Block) (l : list Block) : list Block :=
  match l with
  | [] => [b]
  | x :: l' =>
      if fst (span b) <=? fst (span x) then b :: x :: l'
      else x :: insert_by_start b l'
  end.

Definition sort_by_start (l : list Block) : list Block :=
  fold_right insert_by_start [] l.

Definition fenced_block (md_text : pystr) (m : Match) : Block := {|
  span := (m_start m, m_end m);
  original := slice (m_start m) (m_end m) md_text;
  code := group 2 m md_text;
  kind := Fenced
|}.

Definition startend_block (md_text : pystr) (m : Match) : Block := {|
  span := (group_start 1 m, group_end 1 m);
  original := group 1 m md_text;
  code := group 1 m md_text;
  kind := StartEnd
|}.

Definition find_uml_blocks (md_text : pystr) : list Block :=
  let fenced := map (fenced_block md_text) (finditer RE_FENCED md_text) in
  let startend := map (startend_block md_text) (finditer RE_STARTEND md_text) in
  sort_by_start (fenced ++ startend).
End Matcher.

(** The two tables on ASCII, every other code point being neither a letter
    nor a digit. *)
Definition ascii_tables : ReTables := {|
  sre_lower := ascii_lower;
  sre_is_alnum := fun c =>
    ((48 <=? c) && (c <=? 57) || (65 <=? c) && (c <=? 90) || (97 <=? c) && (c <=? 122))%N
|}.

(** *** What a match is made of *)

(** The last character read, after [a] has been read. *)
Definition last_read (prev : option char) (a : pystr) : option char :=
  match rev a with
  | c :: _ => Some c
  | [] => prev
  end.

(** The number of single-character atoms: no match is shorter. *)
Fixpoint count_chr (r : Regex) : nat :=
  match r with
  | [] => 0
  | Chr _ :: r' => S (count_chr r')
  | _ :: r' => count_chr r'
  end.

(** A continuation that consumes at least [n] characters and stays inside
    the text. *)
Definition Bounded (k : Cont) (n : nat) : Prop :=
  forall prev s pos marks e ms,
    k prev s pos marks = Some (e, ms) -> pos + n <= e /\ e <= pos + length s.

(** The matches of [finditer], in a text that ends at [n]: each one starts at
    [lo] or later, is at least as long as the pattern's single characters and
    ends inside the text, and the next one starts where it ends or later. *)
Fixpoint matches_from (r : Regex) (n lo : nat) (l : list Match) : Prop :=
  match l with
  | [] => True
  | m :: l' =>
      lo <= m_start m /\ m_start m + count_chr r <= m_end m /\ m_end m <= n /\
      matches_from r n (Nat.max (m_end m) (S (m_start m))) l'
  end.

(** A word of a pattern, character by character. *)
Definition word_matches (ps : list (char -> bool)) (a : pystr) : Prop :=
  Forall2 (fun p c => p c = true) ps a.

(** The words of the two patterns. *)
Definition plantuml_chars (tb : ReTables) : list (char -> bool) :=
  map (ci_char tb) (lit "plantuml").
Definition startuml_chars (tb : ReTables) : list (char -> bool) :=
  char_eqb 64%N :: map (ci_char tb) (lit "startuml").
Definition enduml_chars (tb : ReTables) : list (char -> bool) :=
  char_eqb 64%N :: map (ci_char tb) (lit "enduml").

(** Blocks in the order of their start offsets. *)
Definition starts_before (a b : Block) : Prop := fst (span a) <= fst (span b).

(** Two spans that share no position. *)
Definition disjoint_spans (a b : Block) : Prop :=
  snd (span a) <= fst (span b) \/ snd (span b) <= fst (span a).

(** The tables agree with ASCII on ASCII. *)
Definition lowers_ascii_simple (tb : ReTables) : Prop :=
  forall c, (c < 128)%N -> sre_lower tb c = ascii_lower c.

(** A document with a fenced block and a start/end block, and the blocks the
    locator finds in it with the ASCII tables. *)
Definition doc_two_dialects : pystr :=
  lit "# Title" ++ [LF] ++ lit "``` PlantUML {scale=2}" ++ [LF] ++ lit "Alice -> Bob"
    ++ [LF] ++ lit "```" ++ [LF] ++ lit "text @StartUml" ++ [LF] ++ lit "Bob -> Carol"
    ++ [LF] ++ lit "@EndUml more" ++ [LF] ++ lit "@startuml" ++ [LF] ++ lit "Carol -> Dave"
    ++ [LF] ++ lit "@enduml" ++ [LF].

Definition found_block (n : nat) : Block :=
  nth n (find_uml_blocks ascii_tables doc_two_dialects) uml_block.


(** * Properties *)

Unset Implicit Arguments.

(** ** Strings *)

Lemma char_eqb_eq (a b : char) : char_eqb a b = true <-> a = b.
Proof. apply N.eqb_eq. Qed.

Lemma char_eqb_refl (a : char) : char_eqb a a = true.
Proof. apply N.eqb_refl. Qed.

Lemma pystr_eqb_eq (a b : pystr) : pystr_eqb a b = true <-> a = b.
Proof.
  revert b; induction a as [|x a IH]; intros [|y b]; simpl; split;
    try congruence; try reflexivity.
  - intros H. apply andb_true_iff in H as [Hx Hab].
    apply char_eqb_eq in Hx. apply IH in Hab. congruence.
  - intros H. inversion H; subst. rewrite char_eqb_refl. simpl. now apply IH.
Qed.

Lemma startswith_app (p s : pystr) : startswith p (p ++ s) = true.
Proof. induction p as [|x p IH]; simpl; [reflexivity|]. now rewrite char_eqb_refl. Qed.

Lemma startswith_inv (p s : pystr) :
  startswith p s = true -> exists r, s = p ++ r.
Proof.
  revert s; induction p as [|x p IH]; intros s H.
  - now exists s.
  - destruct s as [|y s]; simpl in H; [discriminate|].
    apply andb_true_iff in H as [Hx Hp].
    apply char_eqb_eq in Hx. destruct (IH _ Hp) as [r ->].
    exists r. now subst.
Qed.

Lemma contains_head (needle hay : pystr) :
  startswith needle hay = true -> contains needle hay = true.
Proof. intros H. destruct hay; simpl; rewrite H; reflexivity. Qed.

Lemma contains_intro (needle a b : pystr) : contains needle (a ++ needle ++ b) = true.
Proof.
  induction a as [|x a IH].
  - apply contains_head, (startswith_app needle b).
  - cbn [app contains]. rewrite IH. apply orb_true_r.
Qed.

Lemma contains_inv (needle hay : pystr) :
  contains needle hay = true -> exists a b, hay = a ++ needle ++ b.
Proof.
  induction hay as [|x hay IH]; simpl; intros H.
  - rewrite orb_false_r in H. apply startswith_inv in H as [r Hr].
    exists [], r. exact Hr.
  - apply orb_true_iff in H as [H|H].
    + apply startswith_inv in H as [r Hr]. exists [], r. exact Hr.
    + destruct (IH H) as (a & b & ->). now exists (x :: a), b.
Qed.

(** [splitlines] with [keepends=True] loses nothing. *)
Lemma concat_splitlines (s : pystr) : concat (splitlines s) = s.
Proof.
  induction s as [|c rest IH]; simpl; [reflexivity|].
  destruct (ends_line c rest).
  - simpl. now rewrite IH.
  - destruct (splitlines rest) as [|l ls]; simpl in *; now rewrite <- IH.
Qed.

Lemma splitlines_lf_opening (r : pystr) :
  splitlines ((lit "---" ++ [LF]) ++ r) = (lit "---" ++ [LF]) :: splitlines r.
Proof. reflexivity. Qed.

(** ** The header scan *)

Lemma scan_header_found (rest : list pystr) :
  forall i header header' idx,
    scan_header rest i header = (header', Some idx) ->
    exists pre closing post,
      rest = pre ++ closing :: post /\
      header' = header ++ pre /\
      idx = i + length pre + 1 /\
      is_header_close (strip closing) = true /\
      Forall (fun l => is_header_close (strip l) = false) pre.
Proof.
  induction rest as [|line rest IH]; simpl; intros i header header' idx H.
  - discriminate.
  - destruct (is_header_close (strip line)) eqn:E.
    + inversion H; subst. exists [], line, rest.
      rewrite app_nil_r. simpl. repeat split; auto; lia.
    + apply IH in H as (pre & closing & post & -> & -> & -> & Hc & Hpre).
      exists (line :: pre), closing, post. rewrite <- app_assoc. simpl.
      repeat split; auto; lia.
Qed.

Lemma scan_header_none (rest : list pystr) :
  Forall (fun l => is_header_close (strip l) = false) rest ->
  forall i header, snd (scan_header rest i header) = None.
Proof.
  induction 1 as [|line rest Hl _ IH]; simpl; intros i header; [reflexivity|].
  rewrite Hl. apply IH.
Qed.

Lemma nth_middle_cons (l0 : pystr) (pre : list pystr) (closing : pystr) (post : list pystr) :
  nth (1 + length pre + 1 - 1) (l0 :: pre ++ closing :: post) [] = closing.
Proof.
  replace (1 + length pre + 1 - 1) with (S (length pre)) by lia.
  simpl. apply nth_middle.
Qed.

Lemma skipn_middle_cons (l0 : pystr) (pre : list pystr) (closing : pystr) (post : list pystr) :
  skipn (1 + length pre + 1) (l0 :: pre ++ closing :: post) = post.
Proof.
  replace (1 + length pre + 1) with (S (length pre + 1)) by lia.
  simpl. replace (pre ++ closing :: post) with ((pre ++ [closing]) ++ post)
    by (rewrite <- app_assoc; reflexivity).
  rewrite skipn_app, skipn_all2 by (rewrite length_app; simpl; lia).
  rewrite length_app. simpl. now replace (length pre + 1 - (length pre + 1)) with 0 by lia.
Qed.

(** What the split returns for a text that opens with a LF-terminated
    delimiter line and has a closing line: the header is everything up to and
    including the first closing line, the body is the rest. *)
Lemma split_yaml_header_lf (md_text r : pystr) :
  lstrip_char BOM md_text = (lit "---" ++ [LF]) ++ r ->
  forall header idx,
    scan_header (splitlines r) 1 [] = (header, Some idx) ->
    exists pre closing post,
      splitlines r = pre ++ closing :: post /\
      is_header_close (strip closing) = true /\
      Forall (fun l => is_header_close (strip l) = false) pre /\
      split_yaml_header md_text =
        ((lit "---" ++ [LF]) ++ concat pre ++ closing, concat post).
Proof.
  intros Htext header idx Hscan.
  destruct (scan_header_found _ _ _ _ _ Hscan) as (pre & closing & post & Hr & -> & -> & Hc & Hpre).
  exists pre, closing, post. repeat split; auto.
  unfold split_yaml_header. rewrite Htext.
  replace (opens_header ((lit "---" ++ [LF]) ++ r)) with true by reflexivity.
  rewrite splitlines_lf_opening. cbn [tl]. rewrite Hscan, Hr.
  rewrite nth_middle_cons, skipn_middle_cons. reflexivity.
Qed.

(** ** Header splitting: round trip *)

(** C1, as stated, fails: a header is detected in [doc_with_bom], and header
    plus body gives the document without its byte-order mark, which is not
    the input text. *)
Lemma split_yaml_header_roundtrip_bom_counterexample :
  header_detected doc_with_bom = true /\
  fst (split_yaml_header doc_with_bom) ++ snd (split_yaml_header doc_with_bom)
    <> doc_with_bom.
Proof. split; [reflexivity | vm_compute; discriminate]. Qed.

(** C1, amended: when a header is detected and the opening delimiter line
    ends in a line feed, the returned header followed by the returned body is
    the input text with its leading byte-order marks dropped. *)
Theorem split_yaml_header_roundtrip (md_text : pystr) :
  header_detected md_text = true ->
  startswith (lit "---" ++ [LF]) (lstrip_char BOM md_text) = true ->
  fst (split_yaml_header md_text) ++ snd (split_yaml_header md_text)
    = lstrip_char BOM md_text.
Proof.
  intros Hdet Hopen.
  destruct (startswith_inv _ _ Hopen) as [r Htext].
  unfold header_detected in Hdet. rewrite Htext in Hdet.
  apply andb_true_iff in Hdet as [_ Hdet].
  rewrite splitlines_lf_opening in Hdet. cbn [tl] in Hdet.
  destruct (scan_header (splitlines r) 1 []) as [header [idx|]] eqn:Hscan;
    [clear Hdet | discriminate].
  destruct (split_yaml_header_lf md_text r Htext header idx Hscan)
    as (pre & closing & post & Hr & _ & _ & ->).
  cbn [fst snd]. rewrite Htext, <- (concat_splitlines r), Hr.
  rewrite concat_app. cbn [concat]. now rewrite <- !app_assoc.
Qed.

Lemma split_yaml_header_roundtrip_witness :
  fst (split_yaml_header doc_with_bom) ++ snd (split_yaml_header doc_with_bom)
    = lstrip_char BOM doc_with_bom.
Proof. apply (split_yaml_header_roundtrip doc_with_bom); reflexivity. Defined.

(** With a CR LF opening line the rebuilt header starts with a bare LF line:
    the carriage return of the opening line is lost. *)
Lemma split_yaml_header_crlf_opening :
  header_detected doc_crlf = true /\
  fst (split_yaml_header doc_crlf)
    = lit "---" ++ [LF] ++ lit "title: x" ++ [CR; LF] ++ lit "---" ++ [CR; LF] /\
  snd (split_yaml_header doc_crlf) = lit "body" ++ [CR; LF].
Proof. repeat split. Qed.

(** ** Header splitting: no closing line *)

(** C10, as stated, fails: [doc_unclosed_bom] opens a header that no line
    closes, and the body returned still carries the byte-order mark. *)
Lemma split_yaml_header_unclosed_bom_counterexample :
  opens_header (lstrip_char BOM doc_unclosed_bom) = true /\
  Forall (fun l => is_header_close (strip l) = false)
         (tl (splitlines (lstrip_char BOM doc_unclosed_bom))) /\
  split_yaml_header doc_unclosed_bom <> ([], lstrip_char BOM doc_unclosed_bom).
Proof.
  split; [reflexivity|]. split.
  - vm_compute. repeat constructor.
  - vm_compute. discriminate.
Qed.

(** C10, amended: when the text (byte-order marks aside) opens with a header
    delimiter line and no later line strips to a closing delimiter, the
    header returned is empty and the body is the input text itself, leading
    byte-order marks included. *)
Theorem split_yaml_header_unclosed (md_text : pystr) :
  opens_header (lstrip_char BOM md_text) = true ->
  Forall (fun l => is_header_close (strip l) = false)
         (tl (splitlines (lstrip_char BOM md_text))) ->
  split_yaml_header md_text = ([], md_text).
Proof.
  intros Hopen Hnone. unfold split_yaml_header. rewrite Hopen.
  pose proof (scan_header_none _ Hnone 1 []) as Hs.
  destruct (scan_header _ 1 []) as [header [idx|]]; [discriminate | reflexivity].
Qed.

Lemma split_yaml_header_unclosed_witness :
  split_yaml_header doc_unclosed_bom = ([], doc_unclosed_bom).
Proof.
  apply (split_yaml_header_unclosed doc_unclosed_bom).
  - reflexivity.
  - vm_compute. repeat constructor.
Defined.

(** ** Dollar escaping *)

Lemma unescaped_from_tail (prev : option char) (c : char) (rest : pystr) (i : nat) :
  unescaped_from (Some c) rest i <-> unescaped_from prev (c :: rest) (S i).
Proof.
  unfold unescaped_from. cbn [nth_error char_before].
  destruct i; cbn [char_before nth_error]; tauto.
Qed.

Lemma escape_from_head (prev : option char) (c : char) (rest : pystr) :
  ~ unescaped_from prev (c :: rest) 0 ->
  escape_from prev (c :: rest) = c :: escape_from (Some c) rest.
Proof.
  intros H. cbn [escape_from].
  destruct (char_eqb c DOLLAR) eqn:Ec; [|reflexivity].
  apply char_eqb_eq in Ec. subst c.
  destruct prev as [p|]; cbn [andb negb].
  - destruct (char_eqb p BACKSLASH) eqn:Ep; [reflexivity|].
    exfalso. apply H. split; [reflexivity|]. cbn. intros [= ->].
    now rewrite char_eqb_refl in Ep.
  - exfalso. apply H. split; [reflexivity | discriminate].
Qed.

Lemma escape_from_dollar (prev : option char) (c : char) (rest : pystr) :
  unescaped_from prev (c :: rest) 0 ->
  c = DOLLAR /\
  escape_from prev (c :: rest) = BACKSLASH :: DOLLAR :: escape_from (Some DOLLAR) rest.
Proof.
  intros [Hc Hp]. cbn in Hc. injection Hc as ->. split; [reflexivity|].
  cbn [escape_from char_before] in *. rewrite char_eqb_refl.
  destruct prev as [p|]; [|reflexivity].
  destruct (char_eqb p BACKSLASH) eqn:Ep; [|reflexivity].
  apply char_eqb_eq in Ep. congruence.
Qed.

(** Nothing to escape, nothing changed. *)
Lemma escape_from_clean (s : pystr) :
  forall prev, (forall i, ~ unescaped_from prev s i) -> escape_from prev s = s.
Proof.
  induction s as [|c rest IH]; intros prev H; [reflexivity|].
  rewrite escape_from_head by apply H.
  f_equal. apply IH. intros i Hi. apply (H (S i)).
  now apply unescaped_from_tail.
Qed.

(** One unescaped dollar: one backslash goes in, right before it. *)
Lemma escape_from_single (s : pystr) :
  forall prev i,
    unescaped_from prev s i ->
    (forall j, unescaped_from prev s j -> j = i) ->
    escape_from prev s = firstn i s ++ [BACKSLASH] ++ skipn i s.
Proof.
  induction s as [|c rest IH]; intros prev i Hi Huniq.
  - destruct Hi as [Hi _]. destruct i; discriminate.
  - destruct i as [|i].
    + destruct (escape_from_dollar _ _ _ Hi) as [-> ->].
      cbn [firstn skipn app]. do 2 f_equal.
      apply escape_from_clean. intros j Hj.
      apply (unescaped_from_tail prev) in Hj. apply Huniq in Hj. discriminate.
    + rewrite escape_from_head.
      * cbn [firstn skipn app]. f_equal. apply IH.
        -- now apply (unescaped_from_tail prev).
        -- intros j Hj. apply (unescaped_from_tail prev) in Hj.
           apply Huniq in Hj. now injection Hj.
      * intros H0. apply Huniq in H0. discriminate.
Qed.

(** In the output every dollar has a backslash before it. *)
Lemma escape_from_output_clean (s : pystr) :
  forall prev i, ~ unescaped_from prev (escape_from prev s) i.
Proof.
  induction s as [|c rest IH]; intros prev i [Hd Hb].
  - destruct i; discriminate.
  - cbn [escape_from] in Hd, Hb.
    destruct (char_eqb c DOLLAR &&
              negb match prev with Some p => char_eqb p BACKSLASH | None => false end)
      eqn:E; cbn [app] in Hd, Hb.
    + destruct i as [|[|i]]; cbn in Hd, Hb.
      * discriminate.
      * now apply Hb.
      * apply andb_true_iff in E as [Ec _]. apply char_eqb_eq in Ec. subst c.
        apply (IH (Some DOLLAR) i). split; [exact Hd|].
        destruct i; exact Hb.
    + destruct i as [|i]; cbn in Hd, Hb.
      * injection Hd as ->. rewrite char_eqb_refl in E. cbn in E.
        destruct prev as [p|]; [|discriminate].
        apply negb_false_iff, char_eqb_eq in E. congruence.
      * apply (IH (Some c) i). split; [exact Hd|].
        destruct i; exact Hb.
Qed.

(** C6: a string with no unescaped dollar is returned unchanged, and a string
    with exactly one unescaped dollar, at position [i], comes back with one
    backslash inserted at position [i], right before that dollar. *)
Theorem escape_unescaped_dollars_spec (s : pystr) :
  ((forall i, ~ unescaped_at s i) -> escape_unescaped_dollars s = s) /\
  (forall i,
     unescaped_at s i ->
     (forall j, unescaped_at s j -> j = i) ->
     escape_unescaped_dollars s = firstn i s ++ [BACKSLASH] ++ skipn i s).
Proof.
  split.
  - apply escape_from_clean.
  - apply escape_from_single.
Qed.

(** C9: escaping twice is escaping once, for every string, because the
    output of the transform has no unescaped dollar left. *)
Theorem escape_unescaped_dollars_idempotent (s : pystr) :
  escape_unescaped_dollars (escape_unescaped_dollars s) = escape_unescaped_dollars s /\
  (forall i, ~ unescaped_at (escape_unescaped_dollars s) i).
Proof.
  split.
  - apply escape_from_clean, escape_from_output_clean.
  - apply escape_from_output_clean.
Qed.

Lemma escape_unescaped_dollars_spec_witness :
  escape_unescaped_dollars (lit "a\$b") = lit "a\$b" /\
  escape_unescaped_dollars (lit "a$b") = lit "a\$b".
Proof.
  split.
  - apply (proj1 (escape_unescaped_dollars_spec (lit "a\$b"))).
    intros i [Hd Hb].
    destruct i as [|[|[|[|i]]]]; cbn in Hd; try discriminate.
    + now apply Hb.
    + destruct i; discriminate.
  - apply (proj2 (escape_unescaped_dollars_spec (lit "a$b")) 1).
    + split; vm_compute; discriminate || reflexivity.
    + intros j [Hd Hb].
      destruct j as [|[|[|j]]]; cbn in Hd; try discriminate; try reflexivity.
      destruct j; discriminate.
Defined.

(** ** Block normalisation *)

Section LowerFacts.
Variable ucd : UCD.
Hypothesis Hascii : lowers_ascii ucd.

Lemma lower_ucs4_ascii (before : pystr) (c : char) (after : pystr) :
  (c < 128)%N -> lower_ucs4 ucd before c after = [ascii_lower c].
Proof.
  intros Hc. unfold lower_ucs4.
  destruct (char_eqb c CAPITAL_SIGMA) eqn:E.
  - apply char_eqb_eq in E. subst c. unfold CAPITAL_SIGMA in Hc. lia.
  - now apply Hascii.
Qed.

(** An ASCII prefix is lowered character by character. *)
Lemma do_lower_ascii_prefix (p : pystr) :
  Forall (fun c => (c < 128)%N) p ->
  forall before s,
    do_lower ucd before (p ++ s) = map ascii_lower p ++ do_lower ucd (rev p ++ before) s.
Proof.
  induction 1 as [|c p Hc _ IH]; intros before s; [reflexivity|].
  cbn [app do_lower map rev]. rewrite lower_ucs4_ascii by exact Hc.
  rewrite IH, <- app_assoc. reflexivity.
Qed.

(** So is an ASCII suffix, whatever comes before it. *)
Lemma do_lower_ascii_suffix (q : pystr) :
  Forall (fun c => (c < 128)%N) q ->
  forall s before, exists x, do_lower ucd before (s ++ q) = x ++ map ascii_lower q.
Proof.
  intros Hq. induction s as [|c s IH]; intros before.
  - exists []. cbn [app]. rewrite <- (app_nil_r q) at 1.
    rewrite do_lower_ascii_prefix by exact Hq. cbn [do_lower]. now rewrite app_nil_r.
  - destruct (IH (c :: before)) as [x Hx].
    exists (lower_ucs4 ucd before c (s ++ q) ++ x).
    cbn [app do_lower]. now rewrite Hx, app_assoc.
Qed.

(** The wrapped text always carries both markers in lower case. *)
Lemma wrapped_has_markers (code : pystr) :
  let wrapped := lit "@startuml" ++ [LF] ++ code ++ [LF] ++ lit "@enduml" in
  contains (lit "@startuml") (lower ucd wrapped) = true /\
  contains (lit "@enduml") (lower ucd wrapped) = true.
Proof.
  cbv zeta. unfold lower.
  assert (Hp : Forall (fun c => (c < 128)%N) (lit "@startuml" ++ [LF]))
    by (repeat constructor).
  assert (Hq : Forall (fun c => (c < 128)%N) ([LF] ++ lit "@enduml"))
    by (repeat constructor).
  replace (lit "@startuml" ++ [LF] ++ code ++ [LF] ++ lit "@enduml")
    with ((lit "@startuml" ++ [LF]) ++ code ++ ([LF] ++ lit "@enduml"))
    by (now rewrite <- !app_assoc).
  rewrite do_lower_ascii_prefix by exact Hp.
  destruct (do_lower_ascii_suffix _ Hq code (rev (lit "@startuml" ++ [LF]) ++ []))
    as [x ->].
  split.
  - apply (contains_intro (lit "@startuml") [] ([LF] ++ x ++ [LF] ++ lit "@enduml")).
  - replace (map ascii_lower (lit "@startuml" ++ [LF]) ++ x ++ map ascii_lower ([LF] ++ lit "@enduml"))
      with ((map ascii_lower (lit "@startuml" ++ [LF]) ++ x ++ [LF]) ++ lit "@enduml" ++ []).
    + apply contains_intro.
    + rewrite <- !app_assoc. reflexivity.
Qed.
End LowerFacts.

(** C8: [ensure_wrapped] is idempotent on every string, for every case table
    that lowers ASCII as ASCII does. *)
Theorem ensure_wrapped_idempotent (ucd : UCD) (code : pystr) :
  lowers_ascii ucd ->
  ensure_wrapped ucd (ensure_wrapped ucd code) = ensure_wrapped ucd code.
Proof.
  intros Hascii. unfold ensure_wrapped at 2 3.
  destruct (contains (lit "@startuml") (lower ucd code) &&
            contains (lit "@enduml") (lower ucd code)) eqn:E.
  - unfold ensure_wrapped. now rewrite E.
  - unfold ensure_wrapped.
    destruct (wrapped_has_markers ucd Hascii code) as [-> ->]. reflexivity.
Qed.

Lemma ensure_wrapped_idempotent_witness :
  ensure_wrapped ascii_ucd (ensure_wrapped ascii_ucd (lit "Alice -> Bob"))
    = ensure_wrapped ascii_ucd (lit "Alice -> Bob").
Proof.
  apply (ensure_wrapped_idempotent ascii_ucd (lit "Alice -> Bob")).
  intros c _. reflexivity.
Defined.

(** ** The rewriter *)

Lemma skipn_length_app (a b : pystr) : skipn (length a) (a ++ b) = b.
Proof. induction a; simpl; auto. Qed.

Lemma firstn_length_app (a b : pystr) : firstn (length a) (a ++ b) = a.
Proof. induction a; simpl; congruence. Qed.

Lemma startswith_not_occurs_nil (old : pystr) :
  startswith old [] = false -> ~ occurs old [].
Proof.
  intros H (pre & post & E).
  destruct pre; [|discriminate]. destruct old; [discriminate H | discriminate E].
Qed.

(** [replace_first] against the first occurrence. *)
Lemma replace_first_spec (old new s : pystr) :
  (exists pre post,
      first_occurrence old s pre post /\ replace_first old new s = pre ++ new ++ post)
  \/ (~ occurs old s /\ replace_first old new s = s).
Proof.
  induction s as [|c s IH].
  - cbn [replace_first]. destruct (startswith old []) eqn:E.
    + left. apply startswith_inv in E as [r Hr]. exists [], r. split.
      * split; [exact Hr | intros k Hk; inversion Hk].
      * destruct old; [|discriminate]. cbn in Hr. subst r. reflexivity.
    + right. split; [now apply startswith_not_occurs_nil | reflexivity].
  - cbn [replace_first]. destruct (startswith old (c :: s)) eqn:E.
    + left. destruct (startswith_inv _ _ E) as [r Hr]. exists [], r. split.
      * split; [exact Hr | intros k Hk; inversion Hk].
      * rewrite Hr, skipn_length_app. reflexivity.
    + destruct IH as [(pre & post & [Hs Hmin] & Hrep) | [Hno Hrep]].
      * left. exists (c :: pre), post. split.
        -- split; [cbn; now rewrite <- Hs|].
           intros [|k] Hk; [exact E|]. cbn [skipn]. apply Hmin. cbn in Hk. lia.
        -- now rewrite Hrep.
      * right. split; [|now rewrite Hrep].
        intros (pre & post & Hs). destruct pre as [|x pre].
        -- cbn in Hs. rewrite Hs, startswith_app in E. discriminate.
        -- injection Hs as _ Hs. apply Hno. now exists pre, post.
Qed.

Lemma first_occurrence_unique (old s pre post pre' post' : pystr) :
  first_occurrence old s pre post ->
  first_occurrence old s pre' post' ->
  pre = pre' /\ post = post'.
Proof.
  intros [Hs Hmin] [Hs' Hmin'].
  assert (Hlen : length pre = length pre').
  { destruct (Nat.lt_trichotomy (length pre) (length pre')) as [Hlt | [Heq | Hgt]];
      [exfalso | exact Heq | exfalso].
    - specialize (Hmin' _ Hlt). rewrite Hs, skipn_length_app, startswith_app in Hmin'.
      discriminate.
    - specialize (Hmin _ Hgt). rewrite Hs', skipn_length_app, startswith_app in Hmin.
      discriminate. }
  assert (Hpre : pre = pre').
  { rewrite <- (firstn_length_app pre (old ++ post)),
            <- (firstn_length_app pre' (old ++ post')).
    rewrite <- Hs, <- Hs', Hlen. reflexivity. }
  subst pre'. split; [reflexivity|].
  rewrite Hs in Hs'. now apply app_inv_head in Hs'; apply app_inv_head in Hs'.
Qed.

Lemma first_occurrence_occurs (old s pre post : pystr) :
  first_occurrence old s pre post -> occurs old s.
Proof. intros [Hs _]. now exists pre, post. Qed.

Section Rewriter.
Variable W : Type.
Variable env : Env W.

Lemma rewrite_step_replace (doc : pystr) (r : RenderResult) (blk : Block) :
  rewrite_step env doc (r, blk) (replace_first (original blk) (replacement env r) doc).
Proof.
  destruct r as [[i success] info].
  destruct (replace_first_spec (original blk) (replacement env (i, success, info)) doc)
    as [(pre & post & Hfirst & ->) | [Hno ->]].
  - destruct success; cbn [replacement].
    + now apply step_success.
    + now apply step_failure.
  - now apply step_absent.
Qed.

Lemma rewrite_step_functional (doc : pystr) (rb : RenderResult * Block) (d1 d2 : pystr) :
  rewrite_step env doc rb d1 -> rewrite_step env doc rb d2 -> d1 = d2.
Proof.
  intros H1 H2.
  inversion H1; subst; inversion H2; subst; try reflexivity;
    try match goal with
      | Ha : first_occurrence _ _ ?p ?q, Hb : first_occurrence _ _ ?p' ?q' |- _ =>
          destruct (first_occurrence_unique _ _ _ _ _ _ Ha Hb); subst; reflexivity
      | Ha : first_occurrence _ _ _ _, Hb : ~ occurs _ _ |- _ =>
          exfalso; apply Hb; exact (first_occurrence_occurs _ _ _ _ Ha)
      end.
Qed.

Lemma rewrites_loop (pairs : list (RenderResult * Block)) :
  forall doc, rewrites env doc pairs (rewrite_loop env pairs doc).
Proof.
  induction pairs as [|[r blk] rest IH]; intros doc; cbn [rewrite_loop].
  - constructor.
  - eapply rewrites_cons; [apply rewrite_step_replace | apply IH].
Qed.

Lemma rewrites_functional (pairs : list (RenderResult * Block)) :
  forall doc d1 d2, rewrites env doc pairs d1 -> rewrites env doc pairs d2 -> d1 = d2.
Proof.
  induction pairs as [|rb rest IH]; intros doc d1 d2 H1 H2;
    inversion H1; subst; inversion H2; subst; [reflexivity|].
  match goal with
  | Ha : rewrite_step _ _ _ ?x, Hb : rewrite_step _ _ _ ?y |- _ =>
      pose proof (rewrite_step_functional _ _ _ _ Ha Hb); subst
  end.
  eapply IH; eassumption.
Qed.
End Rewriter.

(** The first block rendered, the second one failed: one image reference,
    then one notice, each in place of one copy of the block. *)
Lemma rewrite_blocks_example :
  rewrite_blocks desk_env
    [(1%Z, true, InfoPath (lit "F:\MD-Proj\diagrams\diagram1.png"));
     (2%Z, false, InfoText (lit "Syntax Error?"))]
    [uml_block; uml_block] doc_two_blocks
  = lit "x ![Diagram 1](F:/MD-Proj/diagrams/diagram1.png){ width=100% }"
      ++ lit " y **Diagram 2 failed to generate: Syntax Error?** z".
Proof. reflexivity. Qed.

(** C4: the rewrite loop pairs results and blocks by position and goes
    through them in list order; each step replaces the first occurrence of
    the block's original text in the working document, and nothing else, by
    the image reference [![Diagram i](path with forward slashes){ width=100% }]
    on success and by the notice [**Diagram i failed to generate: text**] on
    failure; the document so described is the one the loop returns, and the
    only one. *)
Theorem rewrite_blocks_spec (W : Type) (env : Env W)
    (results : list RenderResult) (blocks : list Block) (md_text : pystr) :
  rewrites env md_text (combine results blocks)
           (rewrite_blocks env results blocks md_text) /\
  (forall doc, rewrites env md_text (combine results blocks) doc ->
               doc = rewrite_blocks env results blocks md_text).
Proof.
  split.
  - apply rewrites_loop.
  - intros doc H. eapply rewrites_functional; [exact H | apply rewrites_loop].
Qed.

(** ** Stepping through effectful code *)

Section Steps.
Variable W : Type.
Variable env : Env W.

Lemma bind_normal {A B : Type} (m : M W A) (f : A -> M W B) (st st' : State W) (b : B) :
  bind m f st = (Normal b, st') ->
  exists a st1, m st = (Normal a, st1) /\ f a st1 = (Normal b, st').
Proof.
  unfold bind. destruct (m st) as [[a|e] st1]; intros H; [|discriminate].
  now exists a, st1.
Qed.

Lemma bind_step {A B : Type} (m : M W A) (f : A -> M W B) (st st1 : State W) (a : A) :
  m st = (Normal a, st1) -> bind m f st = f a st1.
Proof. unfold bind. now intros ->. Qed.

Lemma log_print_step (msg : pystr) (st : State W) :
  exists st', log_print msg st = (Normal tt, st') /\ same_world st st'.
Proof. eexists. split; [reflexivity | split; reflexivity]. Qed.

Lemma when_log_step (b : bool) (msg : pystr) (st : State W) :
  exists st', when b (log_print msg) st = (Normal tt, st') /\ same_world st st'.
Proof. destruct b; eexists; (split; [reflexivity | split; reflexivity]). Qed.

Lemma run_normal (cmd : list pystr) (st st' : State W) (cp : CompletedProcess) :
  run env cmd st = (Normal cp, st') ->
  subprocess_run env cmd (world st) = (Normal cp, world st') /\
  calls st' = calls st ++ [cmd].
Proof.
  unfold run. destruct (subprocess_run env cmd (world st)) as [r w] eqn:E.
  intros [= -> <-]. split; reflexivity.
Qed.

Lemma run_step (cmd : list pystr) (st : State W) (r : Outcome CompletedProcess) (w : W) :
  subprocess_run env cmd (world st) = (r, w) ->
  exists st', run env cmd st = (r, st') /\ world st' = w /\ calls st' = calls st ++ [cmd].
Proof. intros E. unfold run. rewrite E. eexists. repeat split. Qed.

Lemma exists_step (p : Path) (st : State W) :
  exists_ env p st = (path_exists env p (world st), st).
Proof. reflexivity. Qed.

End Steps.

(** Take the next [bind] of a hypothesis apart. *)
Ltac bind_inv H :=
  let a := fresh "a" in
  let st1 := fresh "st" in
  let H1 := fresh "Hm" in
  apply bind_normal in H as (a & st1 & H1 & H).

(** Pass a logging step in a hypothesis. *)
Ltac skip_log H :=
  let st1 := fresh "st" in
  let Hs := fresh "Hsame" in
  let E := fresh "E" in
  match type of H with
  | bind (log_print ?msg) _ ?st = _ =>
      destruct (log_print_step _ msg st) as (st1 & E & Hs);
      rewrite (bind_step _ _ _ _ _ _ E) in H; clear E
  | bind (when ?b (log_print ?msg)) _ ?st = _ =>
      destruct (when_log_step _ b msg st) as (st1 & E & Hs);
      rewrite (bind_step _ _ _ _ _ _ E) in H; clear E
  end.

(** Pass a logging step in the goal. *)
Ltac skip_log_goal :=
  let st1 := fresh "st" in
  let Hs := fresh "Hsame" in
  let E := fresh "E" in
  match goal with
  | |- context [bind (log_print ?msg) ?f ?st] =>
      destruct (log_print_step _ msg st) as (st1 & E & Hs);
      rewrite (bind_step _ _ f _ _ _ E); clear E
  | |- context [bind (when ?b (log_print ?msg)) ?f ?st] =>
      destruct (when_log_step _ b msg st) as (st1 & E & Hs);
      rewrite (bind_step _ _ f _ _ _ E); clear E
  end.

(** ** The conversion driver *)

Section Driver.
Variable W : Type.
Variable env : Env W.
Variables (md_path pdf_path : Path) (pandoc_exe : pystr).

Lemma font_loop_sound (pairs : list (pystr * pystr)) :
  forall st r st',
    font_loop env md_path pdf_path pandoc_exe pairs st = (Normal r, st') ->
    exists cmds,
      calls st' = calls st ++ cmds /\
      font_attempts env md_path pdf_path pandoc_exe pairs (world st) cmds r (world st').
Proof.
  induction pairs as [|fp rest IH]; intros st r st' H.
  - inversion H; subst. exists []. rewrite app_nil_r. split; [reflexivity | constructor].
  - cbn [font_loop] in H. skip_log H.
    bind_inv H. apply run_normal in Hm as [Hrun Hcalls].
    do 2 skip_log H. bind_inv H.
    destruct Hsame as [Hw0 Hc0], Hsame0 as [Hw1 Hc1], Hsame1 as [Hw2 Hc2].
    assert (Hok : a0 = true /\ returncode a = 0%Z /\ path_exists env pdf_path (world st3) = Normal true
                  \/ a0 = false /\ (returncode a <> 0%Z \/ path_exists env pdf_path (world st3) = Normal false)).
    { destruct (returncode a =? 0)%Z eqn:Erc.
      - apply Z.eqb_eq in Erc. rewrite exists_step in Hm. injection Hm as Hm <-.
        destruct a0; [left | right]; auto.
      - apply Z.eqb_neq in Erc. injection Hm as <- <-. right; auto. }
    assert (Hst : st4 = st3).
    { destruct (returncode a =? 0)%Z; [rewrite exists_step in Hm|]; now injection Hm. }
    subst st4.
    assert (Hw : world st1 = world st3) by congruence.
    assert (Hc : calls st3 = calls st ++ [font_cmd md_path pdf_path pandoc_exe fp]) by congruence.
    rewrite Hw0, Hw in Hrun.
    destruct Hok as [(-> & Hrc & Hex) | (-> & Hfail)].
    + skip_log H. injection H as <- <-. destruct Hsame as [Hw3 Hc3].
      exists [font_cmd md_path pdf_path pandoc_exe fp]. split; [congruence|].
      rewrite Hw3. eapply attempts_success; eassumption.
    + skip_log H. destruct Hsame as [Hw3 Hc3].
      apply IH in H as (cmds & Hcalls' & Hrest).
      exists (font_cmd md_path pdf_path pandoc_exe fp :: cmds). split.
      * rewrite Hcalls', Hc3, Hc, <- app_assoc. reflexivity.
      * rewrite Hw3 in Hrest. eapply attempts_failure; eassumption.
Qed.

Lemma font_loop_total (Hsafe : never_raises env) (pairs : list (pystr * pystr)) :
  forall st, exists r st',
    font_loop env md_path pdf_path pandoc_exe pairs st = (Normal r, st').
Proof.
  destruct Hsafe as [Hexists Hrun].
  induction pairs as [|fp rest IH]; intros st.
  - now exists None, st.
  - cbn [font_loop]. skip_log_goal.
    destruct (Hrun (font_cmd md_path pdf_path pandoc_exe fp) (world st0)) as (cp & w' & E).
    destruct (run_step _ env _ _ _ _ E) as (st1 & Erun & _ & _).
    rewrite (bind_step _ _ _ _ _ _ Erun). do 2 skip_log_goal.
    destruct (Hexists pdf_path (world st3)) as [present Ep].
    assert (Eok : exists ok,
               (if (returncode cp =? 0)%Z then exists_ env pdf_path else ret false) st3
               = (Normal ok, st3)).
    { destruct (returncode cp =? 0)%Z.
      - exists present. now rewrite exists_step, Ep.
      - now exists false. }
    destruct Eok as [ok Eok]. rewrite (bind_step _ _ _ _ _ _ Eok).
    destruct ok; skip_log_goal.
    + now eexists _, _.
    + apply IH.
Qed.

(** The commands a run of attempts launches: all the pairs when none
    succeeded, the pairs up to the successful one otherwise. *)
Lemma font_attempts_calls (pairs : list (pystr * pystr)) (w w' : W)
    (cmds : list (list pystr)) (r : option Z) :
  font_attempts env md_path pdf_path pandoc_exe pairs w cmds r w' ->
  match r with
  | None => cmds = map (font_cmd md_path pdf_path pandoc_exe) pairs
  | Some rc =>
      rc = 0%Z /\
      exists k, k < length pairs /\
                cmds = map (font_cmd md_path pdf_path pandoc_exe) (firstn (S k) pairs)
  end.
Proof.
  induction 1 as [w | fp rest w w' cp Hrun Hrc Hex
                    | fp rest w w' w'' cp cmds r Hrun Hfail Hrest IH].
  - reflexivity.
  - split; [reflexivity|]. exists 0. cbn. split; [lia | reflexivity].
  - destruct r as [rc|].
    + destruct IH as [-> (k & Hk & ->)]. split; [reflexivity|].
      exists (S k). cbn [length]. split; [lia | reflexivity].
    + subst cmds. reflexivity.
Qed.

Lemma run_pandoc_sound (st st' : State W) (rc : Z) :
  (exists p, shutil_which env pandoc_exe (world st) = Some p /\ p <> []) ->
  run_pandoc_with_font_fallback env md_path pdf_path pandoc_exe st = (Normal rc, st') ->
  exists cmds,
    calls st' = calls st ++ cmds /\
    fallback env md_path pdf_path pandoc_exe (world st) cmds rc (world st').
Proof.
  intros (p & Hwhich & Hp) H.
  unfold run_pandoc_with_font_fallback in H.
  rewrite (bind_step _ _ _ st st (Some p)) in H by (unfold which; now rewrite Hwhich).
  destruct p as [|c p]; [contradiction|]. cbn [truthy negb] in H.
  bind_inv H. apply font_loop_sound in Hm as (cmds & Hcalls & Hattempts).
  destruct a as [rc0|].
  - injection H as <- <-.
    pose proof (font_attempts_calls _ _ _ _ _ Hattempts) as [-> _].
    exists cmds. split; [exact Hcalls | now apply fallback_fonts].
  - skip_log H. bind_inv H. apply run_normal in Hm as [Hrun Hcalls'].
    do 2 skip_log H. injection H as <- <-.
    destruct Hsame as [Hw0 Hc0], Hsame0 as [Hw1 Hc1], Hsame1 as [Hw2 Hc2].
    exists (cmds ++ [default_cmd md_path pdf_path pandoc_exe]). split.
    + rewrite Hc2, Hc1, Hcalls', Hc0, Hcalls, app_assoc. reflexivity.
    + rewrite Hw2, Hw1. rewrite Hw0 in Hrun.
      eapply fallback_defaults; eassumption.
Qed.

Lemma run_pandoc_total (Hsafe : never_raises env) (st : State W) :
  exists rc st',
    run_pandoc_with_font_fallback env md_path pdf_path pandoc_exe st = (Normal rc, st').
Proof.
  unfold run_pandoc_with_font_fallback.
  rewrite (bind_step _ _ _ st st (shutil_which env pandoc_exe (world st))) by reflexivity.
  destruct (negb _).
  - skip_log_goal. now eexists _, _.
  - destruct (font_loop_total Hsafe font_pairs st) as (r & st1 & E).
    rewrite (bind_step _ _ _ _ _ _ E). destruct r as [rc|].
    + now eexists _, _.
    + skip_log_goal.
      destruct Hsafe as [_ Hrun].
      destruct (Hrun (default_cmd md_path pdf_path pandoc_exe) (world st0)) as (cp & w' & E').
      destruct (run_step _ env _ _ _ _ E') as (st2 & Erun & _ & _).
      rewrite (bind_step _ _ _ _ _ _ Erun). do 2 skip_log_goal.
      now eexists _, _.
Qed.

Lemma fallback_calls (w w' : W) (cmds : list (list pystr)) (rc : Z) :
  fallback env md_path pdf_path pandoc_exe w cmds rc w' ->
  (rc = 0%Z /\
   exists k, k < length font_pairs /\
             cmds = map (font_cmd md_path pdf_path pandoc_exe) (firstn (S k) font_pairs))
  \/ cmds = map (font_cmd md_path pdf_path pandoc_exe) font_pairs
              ++ [default_cmd md_path pdf_path pandoc_exe].
Proof.
  intros [w0 w1 cs Hattempts | w0 w1 w2 cs cp Hattempts Hrun].
  - left. exact (font_attempts_calls _ _ _ _ _ Hattempts).
  - right. now rewrite (font_attempts_calls _ _ _ _ _ Hattempts).
Qed.
End Driver.

(** C2: with the converter on the search path, a run that returns has tried
    the font pairs in their fixed order, one invocation each; it stopped at
    the first invocation that exited with status zero and left the PDF on
    disk, and then returned 0; when every pair failed it made exactly one
    more invocation, without font overrides, and returned the exit status of
    that one, whether the file is there or not.  When no external operation
    raises, the run does return. *)
Theorem run_pandoc_with_font_fallback_spec (W : Type) (env : Env W)
    (md_path pdf_path : Path) (pandoc_exe : pystr) (st : State W) :
  (exists p, shutil_which env pandoc_exe (world st) = Some p /\ p <> []) ->
  (forall rc st',
      run_pandoc_with_font_fallback env md_path pdf_path pandoc_exe st = (Normal rc, st') ->
      exists cmds,
        calls st' = calls st ++ cmds /\
        fallback env md_path pdf_path pandoc_exe (world st) cmds rc (world st') /\
        ((rc = 0%Z /\
          exists k, k < length font_pairs /\
                    cmds = map (font_cmd md_path pdf_path pandoc_exe)
                               (firstn (S k) font_pairs))
         \/ cmds = map (font_cmd md_path pdf_path pandoc_exe) font_pairs
                     ++ [default_cmd md_path pdf_path pandoc_exe])) /\
  (never_raises env ->
   exists rc st',
     run_pandoc_with_font_fallback env md_path pdf_path pandoc_exe st = (Normal rc, st')).
Proof.
  intros Hwhich. split.
  - intros rc st' H.
    destruct (run_pandoc_sound W env md_path pdf_path pandoc_exe st st' rc Hwhich H)
      as (cmds & Hcalls & Hfall).
    exists cmds. repeat split; try assumption.
    exact (fallback_calls W env md_path pdf_path pandoc_exe _ _ _ _ Hfall).
  - intros Hsafe. now apply run_pandoc_total.
Qed.

Lemma desk_never_raises : never_raises desk_env.
Proof.
  split.
  - intros p w. now eexists.
  - intros cmd w. cbn [subprocess_run desk_env]. unfold desk_run.
    destruct (pystr_eqb _ _); [destruct (renderer_ok w) | destruct (existsb _ _)];
      now eexists _, _.
Qed.

(** Calibri is the third pair: three invocations, status 0. *)
Lemma run_pandoc_with_font_fallback_spec_witness :
  exists st',
    run_pandoc_with_font_fallback desk_env (lit "book_tmp.md") (lit "book.pdf") (lit "pandoc")
      (desk_start (desk "Calibri" true true true [])) = (Normal 0%Z, st') /\
    calls st' = map (font_cmd (lit "book_tmp.md") (lit "book.pdf") (lit "pandoc"))
                    (firstn 3 font_pairs).
Proof.
  destruct (run_pandoc_with_font_fallback_spec Desk desk_env
              (lit "book_tmp.md") (lit "book.pdf") (lit "pandoc")
              (desk_start (desk "Calibri" true true true [])))
    as [Hsound Htotal].
  - eexists. split; [reflexivity | discriminate].
  - destruct (Htotal desk_never_raises) as (rc & st' & E).
    destruct (Hsound rc st' E) as (cmds & Hcalls & _ & _).
    exists st'. revert Hcalls. revert E. vm_compute. intros [= <- <-]. split; reflexivity.
Defined.

(** No font of the list is installed: eight attempts, then the invocation
    without overrides, whose status 43 is returned. *)
Lemma run_pandoc_all_fonts_fail_example :
  let r := run_pandoc_with_font_fallback desk_env (lit "book_tmp.md") (lit "book.pdf")
             (lit "pandoc") (desk_start (desk "Helvetica" true true true [])) in
  fst r = Normal 43%Z /\
  calls (snd r) =
    map (font_cmd (lit "book_tmp.md") (lit "book.pdf") (lit "pandoc")) font_pairs
      ++ [default_cmd (lit "book_tmp.md") (lit "book.pdf") (lit "pandoc")].
Proof. split; reflexivity. Qed.



(** ** PlantUML rendering *)

(** Reduce the state plumbing once an outcome is known. *)
Ltac norm_state := cbv beta iota zeta; cbn [world calls log].

(** Over a sink that accepts every line [process_uml_io] is [process_uml]. *)
Lemma process_uml_io_accepting (W : Type) (env : Env W) (ucd : UCD)
    (log_raises : pystr -> W -> option Exn) (args : Z * pystr * Path * Path)
    (st : State W) :
  (forall message w, log_raises message w = None) ->
  process_uml_io env ucd log_raises args st = process_uml env ucd args st.
Proof.
  intros Hlog. destruct args as [[[i code_text] plantuml_jar] output_dir].
  unfold process_uml_io, process_uml.
  unfold try_except, bind, exists_, write_text, run, log_print_io, log_print, when, ret.
  cbn [world calls log].
  destruct (path_exists env _ (world st)) as [[|]|e0]; norm_state;
    rewrite ?Hlog; norm_state; try reflexivity.
  destruct (path_write_text env _ _ (world st)) as [[[]|e1] w1]; norm_state;
    rewrite ?Hlog; norm_state; try reflexivity.
  destruct (subprocess_run env _ w1) as [[cp|e2] w2]; norm_state;
    rewrite ?Hlog; norm_state; try reflexivity.
  destruct (truthy (strip (stdout cp))), (truthy (strip (stderr cp))); norm_state;
    rewrite ?Hlog; norm_state;
    destruct (negb (returncode cp =? 0)%Z); norm_state; rewrite ?Hlog; reflexivity.
Qed.

(** C3, as stated, fails on two counts.  With the PNG of diagram 3 on disk
    and a log file that cannot be opened, the line logged in the [try]
    raises, the handler catches that and logs in its turn, and that second
    exception leaves [process_uml].  And when the renderer exits with status
    200 and [Error line 2 in file] followed by a line feed on its standard
    error, the error text of the result is that text without the line feed,
    not the captured text. *)
Lemma process_uml_spec_counterexample :
  (exists st',
     process_uml_io desk_env ascii_ucd log_is_directory
       (3%Z, lit "A -> B", lit "plantuml.jar", lit "diagrams")
       (desk_start (desk "Calibri" true true true [lit "diagrams\diagram3.png"]))
     = (Raised {| exn_message := lit "[Errno 21] Is a directory: 'conversion.log'" |}, st')) /\
  (exists cp w',
     subprocess_run desk_env
       (plantuml_cmd (lit "plantuml.jar") (lit "diagrams\diagram3.puml"))
       (desk_add (lit "diagrams\diagram3.puml") (desk "Calibri" true true false []))
     = (Normal cp, w') /\
     returncode cp <> 0%Z /\
     stderr cp = lit "Error line 2 in file" ++ [LF] /\
     fst (process_uml_io desk_env ascii_ucd log_accepts
            (3%Z, lit "A -> B", lit "plantuml.jar", lit "diagrams")
            (desk_start (desk "Calibri" true true false [])))
     = Normal (3%Z, false, InfoText (lit "Error line 2 in file")) /\
     InfoText (lit "Error line 2 in file") <> InfoText (stderr cp)).
Proof.
  split.
  - eexists. reflexivity.
  - eexists _, _. split; [reflexivity|]. cbn [returncode stderr].
    repeat split; discriminate.
Qed.

(** C3, amended: as long as the log sink accepts the lines, [process_uml]
    returns a triple whose first component is the ordinal, and no exception
    leaves it.  When the PNG is already there the result is a success with
    its path and nothing is launched.  When it is not, the source is written
    and the renderer launched once: exit status zero gives a success with the
    PNG path, any other status a failure with the captured standard error
    stripped of the white space around it.  When looking for the file,
    writing the source or launching the renderer raises, the result is a
    failure with the message of the exception. *)
Theorem process_uml_spec (W : Type) (env : Env W) (ucd : UCD)
    (log_raises : pystr -> W -> option Exn)
    (i : Z) (code_text : pystr) (plantuml_jar output_dir : Path) (st : State W) :
  (forall message w, log_raises message w = None) ->
  let puml_file := joinpath env output_dir (lit "diagram" ++ str_of_int i ++ lit ".puml") in
  let png_file := joinpath env output_dir (lit "diagram" ++ str_of_int i ++ lit ".png") in
  exists success info st',
    process_uml_io env ucd log_raises (i, code_text, plantuml_jar, output_dir) st
      = (Normal (i, success, info), st') /\
    (path_exists env png_file (world st) = Normal true ->
       success = true /\ info = InfoPath png_file /\
       calls st' = calls st /\ world st' = world st) /\
    (forall w1 cp w2,
       path_exists env png_file (world st) = Normal false ->
       path_write_text env puml_file (ensure_wrapped ucd code_text) (world st)
         = (Normal tt, w1) ->
       subprocess_run env (plantuml_cmd plantuml_jar puml_file) w1 = (Normal cp, w2) ->
       calls st' = calls st ++ [plantuml_cmd plantuml_jar puml_file] /\
       (returncode cp = 0%Z -> success = true /\ info = InfoPath png_file) /\
       (returncode cp <> 0%Z -> success = false /\ info = InfoText (strip (stderr cp)))) /\
    (forall e,
       path_exists env png_file (world st) = Raised e ->
       success = false /\ info = InfoText (exn_message e) /\ calls st' = calls st) /\
    (forall e w1,
       path_exists env png_file (world st) = Normal false ->
       path_write_text env puml_file (ensure_wrapped ucd code_text) (world st)
         = (Raised e, w1) ->
       success = false /\ info = InfoText (exn_message e) /\ calls st' = calls st) /\
    (forall e w1 w2,
       path_exists env png_file (world st) = Normal false ->
       path_write_text env puml_file (ensure_wrapped ucd code_text) (world st)
         = (Normal tt, w1) ->
       subprocess_run env (plantuml_cmd plantuml_jar puml_file) w1 = (Raised e, w2) ->
       success = false /\ info = InfoText (exn_message e)).
Proof.
  intros Hlog. cbv zeta.
  rewrite (process_uml_io_accepting W env ucd log_raises _ st Hlog).
  set (puml_file := joinpath env output_dir (lit "diagram" ++ str_of_int i ++ lit ".puml")).
  set (png_file := joinpath env output_dir (lit "diagram" ++ str_of_int i ++ lit ".png")).
  unfold process_uml. fold puml_file png_file.
  unfold try_except, bind, exists_, write_text, run, log_print, when, ret.
  cbn [world calls log].
  destruct (path_exists env png_file (world st)) as [[|]|e0] eqn:Hex; norm_state.
  - eexists _, _, _. split; [reflexivity|].
    repeat split; cbn [calls world]; intros; congruence.
  - destruct (path_write_text env puml_file (ensure_wrapped ucd code_text) (world st))
      as [[[]|e1] w1] eqn:Hwr; norm_state.
    + destruct (subprocess_run env (plantuml_cmd plantuml_jar puml_file) w1)
        as [[cp|e2] w2] eqn:Hrun; norm_state.
      * destruct (truthy (strip (stdout cp))), (truthy (strip (stderr cp)));
          norm_state;
          destruct (returncode cp =? 0)%Z eqn:Erc; cbn [negb]; norm_state;
          (apply Z.eqb_eq in Erc || apply Z.eqb_neq in Erc);
          (eexists _, _, _; split; [reflexivity|];
           repeat split; cbn [calls world]; intros; congruence).
      * eexists _, _, _. split; [reflexivity|].
        repeat split; cbn [calls world]; intros; congruence.
    + eexists _, _, _. split; [reflexivity|].
      repeat split; cbn [calls world]; intros; congruence.
  - eexists _, _, _. split; [reflexivity|].
    repeat split; cbn [calls world]; intros; congruence.
Qed.

(** Three runs on the example world, the log accepting every line: the PNG
    is already there; the renderer rejects the source; the source file
    cannot be written. *)
Lemma process_uml_spec_witness :
  fst (process_uml_io desk_env ascii_ucd log_accepts
         (3%Z, lit "A -> B", lit "plantuml.jar", lit "diagrams")
         (desk_start (desk "Calibri" true true true [lit "diagrams\diagram3.png"])))
    = Normal (3%Z, true, InfoPath (lit "diagrams\diagram3.png")) /\
  fst (process_uml_io desk_env ascii_ucd log_accepts
         (3%Z, lit "A -> B", lit "plantuml.jar", lit "diagrams")
         (desk_start (desk "Calibri" true true false [])))
    = Normal (3%Z, false, InfoText (lit "Error line 2 in file")) /\
  fst (process_uml_io desk_env ascii_ucd log_accepts
         (3%Z, lit "A -> B", lit "plantuml.jar", lit "diagrams")
         (desk_start (desk "Calibri" true false true [])))
    = Normal (3%Z, false, InfoText (lit "[Errno 13] Permission denied")).
Proof.
  split; [|split].
  - pose proof (process_uml_spec Desk desk_env ascii_ucd log_accepts 3 (lit "A -> B")
                  (lit "plantuml.jar") (lit "diagrams")
                  (desk_start (desk "Calibri" true true true [lit "diagrams\diagram3.png"]))
                  (fun _ _ => eq_refl))
      as H.
    cbv zeta in H. destruct H as (success & info & st' & E & Hskip & _).
    destruct (Hskip eq_refl) as (-> & -> & _). exact (f_equal fst E).
  - pose proof (process_uml_spec Desk desk_env ascii_ucd log_accepts 3 (lit "A -> B")
                  (lit "plantuml.jar") (lit "diagrams")
                  (desk_start (desk "Calibri" true true false []))
                  (fun _ _ => eq_refl))
      as H.
    cbv zeta in H. destruct H as (success & info & st' & E & _ & Hrender & _).
    destruct (Hrender _ _ _ eq_refl eq_refl eq_refl) as (_ & _ & Hfail).
    destruct Hfail as [-> ->]; [discriminate|]. exact (f_equal fst E).
  - pose proof (process_uml_spec Desk desk_env ascii_ucd log_accepts 3 (lit "A -> B")
                  (lit "plantuml.jar") (lit "diagrams")
                  (desk_start (desk "Calibri" true false true []))
                  (fun _ _ => eq_refl))
      as H.
    cbv zeta in H. destruct H as (success & info & st' & E & _ & _ & _ & Hwrite & _).
    destruct (Hwrite _ _ eq_refl eq_refl) as (-> & -> & _). exact (f_equal fst E).
Defined.

(** ** Page breaks *)

Lemma lstrip_by_split (p : char -> bool) (s : pystr) :
  exists b, s = b ++ lstrip_by p s /\ forallb p b = true /\
            length b + length (lstrip_by p s) = length s.
Proof.
  induction s as [|c s (b & Hs & Hb & Hl)]; [now exists []|].
  cbn [lstrip_by]. destruct (p c) eqn:E.
  - exists (c :: b). cbn. rewrite E, Hb, <- Hs. repeat split. lia.
  - now exists [].
Qed.

Lemma lstrip_by_head (p : char -> bool) (s : pystr) (c : char) (r : pystr) :
  lstrip_by p s = c :: r -> p c = false /\ In c s.
Proof.
  induction s as [|x s IH]; cbn [lstrip_by]; [discriminate|].
  destruct (p x) eqn:E; intros H.
  - destruct (IH H). split; [assumption | now right].
  - injection H as -> ->. split; [assumption | now left].
Qed.

Lemma lstrip_by_all (p : char -> bool) (s : pystr) :
  forallb p s = true -> lstrip_by p s = [].
Proof.
  induction s as [|c s IH]; cbn; [reflexivity|].
  destruct (p c); [exact IH | discriminate].
Qed.

Lemma lstrip_by_app_all (p : char -> bool) (a s : pystr) :
  forallb p a = true -> lstrip_by p (a ++ s) = lstrip_by p s.
Proof.
  induction a as [|c a IH]; cbn; [reflexivity|].
  destruct (p c); [exact IH | discriminate].
Qed.

Lemma blank_run_skipn (s : pystr) : skipn (blank_run s) s = lstrip_by is_blank s.
Proof.
  induction s as [|c s IH]; [reflexivity|]. cbn [blank_run lstrip_by].
  destruct (is_blank c); [exact IH | reflexivity].
Qed.

Lemma blank_run_length (s : pystr) :
  blank_run s + length (lstrip_by is_blank s) = length s.
Proof.
  induction s as [|c s IH]; [reflexivity|]. cbn [blank_run lstrip_by].
  destruct (is_blank c); cbn [length]; lia.
Qed.

(** What follows a line: nothing, or a line feed. *)
Lemma at_line_end_cases (t : pystr) :
  at_line_end t = true -> t = [] \/ exists t', t = LF :: t'.
Proof.
  destruct t as [|c t]; [now left|]. cbn. intros H. apply char_eqb_eq in H.
  right. exists t. now subst.
Qed.

Lemma blank_run_app (l t : pystr) :
  at_line_end t = true -> blank_run (l ++ t) = blank_run l.
Proof.
  intros Ht. induction l as [|c l IH]; cbn [app blank_run].
  - destruct (at_line_end_cases t Ht) as [-> | [t' ->]]; reflexivity.
  - now rewrite IH.
Qed.

Lemma lstrip_blank_app (l t : pystr) :
  at_line_end t = true -> lstrip_by is_blank (l ++ t) = lstrip_by is_blank l ++ t.
Proof.
  intros Ht. induction l as [|c l IH]; cbn [app lstrip_by].
  - destruct (at_line_end_cases t Ht) as [-> | [t' ->]]; reflexivity.
  - destruct (is_blank c); [exact IH | reflexivity].
Qed.

Lemma startswith_hyphens_app (m t : pystr) :
  at_line_end t = true ->
  startswith (lit "---") (m ++ t) = startswith (lit "---") m.
Proof.
  intros Ht.
  destruct (at_line_end_cases t Ht) as [-> | [t' ->]]; [now rewrite app_nil_r|].
  destruct m as [|c1 [|c2 [|c3 m]]]; cbn; try reflexivity;
    repeat match goal with
      | |- context [char_eqb ?a ?b] => destruct (char_eqb a b); cbn
      end; reflexivity.
Qed.

(** The words of the specification for [is_pagebreak_line]. *)
Lemma is_pagebreak_line_iff (l : pystr) :
  is_pagebreak_line l = true <->
  exists a b, l = a ++ lit "---" ++ b /\
              forallb is_blank a = true /\ forallb is_blank b = true.
Proof.
  unfold is_pagebreak_line. split.
  - intros H. apply andb_true_iff in H as [Hs Hb].
    destruct (lstrip_by_split is_blank l) as (a & Hl & Ha & _).
    destruct (startswith_inv _ _ Hs) as [r Hr]. rewrite Hr in Hb, Hl.
    exists a, r. repeat split; assumption.
  - intros (a & b & -> & Ha & Hb).
    rewrite lstrip_by_app_all by exact Ha.
    cbn. exact Hb.
Qed.

(** The regular expression at the head of a line: it matches exactly the
    page-break lines, and then the whole line. *)
Lemma match_pagebreak_line (l t : pystr) :
  ~ In LF l ->
  at_line_end t = true ->
  match_pagebreak (l ++ t) = if is_pagebreak_line l then Some (length l) else None.
Proof.
  intros Hl Ht. unfold match_pagebreak, is_pagebreak_line.
  rewrite blank_run_skipn, blank_run_app, lstrip_blank_app, startswith_hyphens_app by exact Ht.
  destruct (startswith (lit "---") (lstrip_by is_blank l)) eqn:Hs; [|reflexivity].
  destruct (startswith_inv _ _ Hs) as [r Hr]. rewrite Hr.
  replace (skipn 3 ((lit "---" ++ r) ++ t)) with (r ++ t) by reflexivity.
  replace (skipn 3 (lit "---" ++ r)) with r by reflexivity.
  rewrite blank_run_skipn, blank_run_app, lstrip_blank_app by exact Ht.
  cbn [andb].
  pose proof (blank_run_length l) as Hlen. rewrite Hr in Hlen.
  pose proof (blank_run_length r) as Hlenr.
  destruct (lstrip_by is_blank r) as [|c r'] eqn:Er.
  - assert (Hall : forallb is_blank r = true).
    { destruct (lstrip_by_split is_blank r) as (b & Hb & Hbb & _).
      rewrite Er, app_nil_r in Hb. now subst b. }
    rewrite Hall. cbn [app]. rewrite Ht. f_equal.
    cbn [length] in Hlenr. rewrite length_app in Hlen. cbn [length] in Hlen.
    change (length (lit "---")) with 3 in Hlen. lia.
  - destruct (lstrip_by_head is_blank r c r' Er) as [Hc Hin].
    assert (Hnot : forallb is_blank r = false).
    { apply not_true_is_false. intros Hall. rewrite (lstrip_by_all _ _ Hall) in Er.
      discriminate. }
    rewrite Hnot. cbn [app at_line_end].
    destruct (char_eqb c LF) eqn:Ec; [|reflexivity].
    apply char_eqb_eq in Ec. subst c. exfalso. apply Hl.
    destruct (lstrip_by_split is_blank l) as (b & Hb & _). rewrite Hb, Hr.
    apply in_or_app. right. apply in_or_app. now right.
Qed.

Lemma sub_pagebreak_lf (prev : option char) (t : pystr) :
  sub_pagebreak prev 0 (LF :: t) = LF :: sub_pagebreak (Some LF) 0 t.
Proof. cbn [sub_pagebreak]. destruct (at_line_start prev); reflexivity. Qed.

(** After a line, what came before the line feed does not matter. *)
Lemma sub_pagebreak_tail (p q : option char) (t : pystr) :
  at_line_end t = true -> sub_pagebreak p 0 t = sub_pagebreak q 0 t.
Proof.
  intros Ht. destruct (at_line_end_cases t Ht) as [-> | [t' ->]]; [reflexivity|].
  now rewrite !sub_pagebreak_lf.
Qed.

(** The rest of a matched line is passed over. *)
Lemma sub_pagebreak_skip (l : pystr) :
  forall p t, exists q, sub_pagebreak p (length l) (l ++ t) = sub_pagebreak q 0 t.
Proof.
  induction l as [|c l IH]; intros p t.
  - exists p. reflexivity.
  - cbn [length app sub_pagebreak]. apply IH.
Qed.

(** Inside a line the text is copied. *)
Lemma sub_pagebreak_copy (l : pystr) :
  forall c t, c <> LF -> ~ In LF l ->
    exists q, sub_pagebreak (Some c) 0 (l ++ t) = l ++ sub_pagebreak q 0 t.
Proof.
  induction l as [|x l IH]; intros c t Hc Hl.
  - exists (Some c). reflexivity.
  - cbn [app sub_pagebreak at_line_start].
    destruct (char_eqb c LF) eqn:E; [apply char_eqb_eq in E; contradiction|].
    destruct (IH x t) as [q Hq].
    + intros ->. apply Hl. now left.
    + intros H. apply Hl. now right.
    + exists q. now rewrite Hq.
Qed.

(** One line, from its start to its end. *)
Lemma sub_pagebreak_line (l t : pystr) (prev : option char) :
  at_line_start prev = true ->
  ~ In LF l ->
  at_line_end t = true ->
  sub_pagebreak prev 0 (l ++ t) = convert_line l ++ sub_pagebreak None 0 t.
Proof.
  intros Hp Hl Ht. unfold convert_line.
  pose proof (match_pagebreak_line l t Hl Ht) as Hm.
  destruct l as [|c l].
  - cbn [app]. replace (is_pagebreak_line []) with false by reflexivity.
    cbn [app]. now apply sub_pagebreak_tail.
  - cbn [app sub_pagebreak] in *. rewrite Hp, Hm.
    destruct (is_pagebreak_line (c :: l)).
    + cbn [length]. replace (S (length l) - 1) with (length l) by lia.
      destruct (sub_pagebreak_skip l (Some c) t) as [q ->].
      f_equal. now apply sub_pagebreak_tail.
    + destruct (sub_pagebreak_copy l c t) as [q ->].
      * intros ->. apply Hl. now left.
      * intros H. apply Hl. now right.
      * cbn [app]. do 2 f_equal. now apply sub_pagebreak_tail.
Qed.

Lemma split_lf_shape (s : pystr) :
  split_lf s <> [] /\ Forall (fun l => ~ In LF l) (split_lf s) /\ join_lf (split_lf s) = s.
Proof.
  induction s as [|c s (Hne & Hall & Hjoin)].
  - repeat split; [discriminate | repeat constructor; auto].
  - cbn [split_lf]. destruct (char_eqb c LF) eqn:E.
    + apply char_eqb_eq in E. subst c. repeat split.
      * discriminate.
      * constructor; [auto | exact Hall].
      * cbn [join_lf]. destruct (split_lf s); [contradiction|]. now rewrite Hjoin.
    + destruct (split_lf s) as [|l ls]; [contradiction|].
      repeat split.
      * discriminate.
      * inversion Hall; subst. constructor; [|assumption].
        intros [->|H]; [now rewrite char_eqb_refl in E | contradiction].
      * cbn [join_lf] in *. destruct ls; cbn [app]; now rewrite <- Hjoin.
Qed.

Lemma sub_pagebreak_join (ls : list pystr) :
  ls <> [] ->
  Forall (fun l => ~ In LF l) ls ->
  forall prev, at_line_start prev = true ->
    sub_pagebreak prev 0 (join_lf ls) = join_lf (map convert_line ls).
Proof.
  induction ls as [|l ls IH]; intros Hne Hall prev Hp; [contradiction|].
  inversion Hall as [|? ? Hl Hls]; subst.
  destruct ls as [|l' ls].
  - cbn [join_lf map]. rewrite <- (app_nil_r l) at 1.
    rewrite sub_pagebreak_line by (auto; reflexivity). cbn. apply app_nil_r.
  - change (join_lf (l :: l' :: ls)) with (l ++ LF :: join_lf (l' :: ls)).
    change (join_lf (map convert_line (l :: l' :: ls)))
      with (convert_line l ++ LF :: join_lf (map convert_line (l' :: ls))).
    rewrite sub_pagebreak_line by (auto; reflexivity).
    rewrite sub_pagebreak_lf. do 2 f_equal.
    apply IH; [discriminate | assumption | reflexivity].
Qed.

(** The substitution, line by line: every page-break line becomes the
    directive and every other line stays. *)
Lemma sub_pagebreak_lines (body : pystr) :
  sub_pagebreak None 0 body = join_lf (map convert_line (split_lf body)).
Proof.
  destruct (split_lf_shape body) as (Hne & Hall & Hjoin).
  rewrite <- Hjoin at 1. now apply sub_pagebreak_join.
Qed.

(** [apply_page_breaks] hands the header of [split_yaml_header] through and
    converts the body line by line. *)
Lemma apply_page_breaks_lines (md_text : pystr) :
  apply_page_breaks md_text =
    fst (split_yaml_header md_text)
      ++ join_lf (map convert_line (split_lf (snd (split_yaml_header md_text)))).
Proof.
  unfold apply_page_breaks. destruct (split_yaml_header md_text) as [h b].
  cbn [fst snd]. now rewrite sub_pagebreak_lines.
Qed.

Lemma upto_close_found (pre : list pystr) (closing : pystr) (post : list pystr) :
  Forall (fun l => is_header_close (strip l) = false) pre ->
  is_header_close (strip closing) = true ->
  upto_close (pre ++ closing :: post) = Some (concat pre ++ closing).
Proof.
  intros Hpre Hc. induction Hpre as [|l pre Hl _ IH]; cbn [app upto_close concat].
  - now rewrite Hc.
  - rewrite Hl, IH. now rewrite app_assoc.
Qed.

(** With a LF-terminated opening line the header region of the text comes
    out of [apply_page_breaks] as it went in, its own bare three-dash lines
    included, and only what follows it is converted. *)
Lemma apply_page_breaks_lf_header (md_text h : pystr) :
  startswith (lit "---" ++ [LF]) (lstrip_char BOM md_text) = true ->
  header_region (lstrip_char BOM md_text) = Some h ->
  exists body,
    lstrip_char BOM md_text = h ++ body /\
    apply_page_breaks md_text = h ++ join_lf (map convert_line (split_lf body)).
Proof.
  intros Hopen Hreg.
  destruct (startswith_inv _ _ Hopen) as [r Htext].
  unfold header_region in Hreg. rewrite Htext in Hreg.
  replace (opens_header ((lit "---" ++ [LF]) ++ r)) with true in Hreg by reflexivity.
  rewrite splitlines_lf_opening in Hreg.
  destruct (scan_header (splitlines r) 1 []) as [header [idx|]] eqn:Hscan.
  - destruct (split_yaml_header_lf md_text r Htext header idx Hscan)
      as (pre & closing & post & Hr & Hc & Hpre & Hsplit).
    rewrite Hr, (upto_close_found pre closing post Hpre Hc) in Hreg.
    injection Hreg as <-. exists (concat post). split.
    + rewrite Htext, <- (concat_splitlines r), Hr, concat_app. cbn [concat].
      cbn. now rewrite <- !app_assoc.
    + rewrite apply_page_breaks_lines, Hsplit. cbn [fst snd].
      cbn. now rewrite <- !app_assoc.
  - exfalso.
    assert (Hnone : forall rest i hd, snd (scan_header rest i hd) = None ->
                                      upto_close rest = None).
    { induction rest as [|l rest IH]; intros i hd H; [reflexivity|].
      cbn [scan_header upto_close] in *.
      destruct (is_header_close (strip l)); [discriminate|].
      now rewrite (IH _ _ H). }
    rewrite (Hnone (splitlines r) 1 []) in Hreg by now rewrite Hscan.
    discriminate.
Qed.

(** ** Page breaks on the texts the program reads

    [md_file.read_text] (line 229) opens the file with universal newlines:
    every CR LF and every lone CR of the file reaches the program as LF, so
    the text that [apply_page_breaks] is given has no carriage return. *)

Lemma lstrip_by_incl (p : char -> bool) (s : pystr) (c : char) :
  In c (lstrip_by p s) -> In c s.
Proof.
  intros H. destruct (lstrip_by_split p s) as (b & Hs & _).
  rewrite Hs. apply in_or_app. now right.
Qed.

(** Without a carriage return, a text that opens a header opens it with a
    line that ends in LF. *)
Lemma opens_header_no_cr (text : pystr) :
  ~ In CR text -> opens_header text = true ->
  startswith (lit "---" ++ [LF]) text = true.
Proof.
  intros Hcr H. unfold opens_header in H.
  apply orb_true_iff in H as [H|H]; [exact H|].
  exfalso. apply startswith_inv in H as [r ->]. apply Hcr.
  apply in_or_app. left. cbn. tauto.
Qed.

Lemma upto_close_none (rest : list pystr) :
  forall i header, upto_close rest = None -> snd (scan_header rest i header) = None.
Proof.
  induction rest as [|l rest IH]; intros i header H; [reflexivity|].
  cbn [scan_header upto_close] in *.
  destruct (is_header_close (strip l)); [discriminate|].
  destruct (upto_close rest); [discriminate|]. now apply IH.
Qed.

(** A text with no header region is all body. *)
Lemma split_yaml_header_no_region (md_text : pystr) :
  header_region (lstrip_char BOM md_text) = None ->
  split_yaml_header md_text = ([], md_text).
Proof.
  unfold header_region, split_yaml_header. cbv zeta.
  destruct (opens_header (lstrip_char BOM md_text)); [|reflexivity].
  destruct (splitlines (lstrip_char BOM md_text)) as [|opening rest]; [reflexivity|].
  cbn [tl]. intros H.
  destruct (upto_close rest) eqn:Hu; [discriminate|].
  pose proof (upto_close_none rest 1 [] Hu) as Hscan.
  destruct (scan_header rest 1 []) as [header [idx|]]; [discriminate | reflexivity].
Qed.

(** The header region of a text opens with the opening delimiter line. *)
Lemma header_region_lf_opening (text h : pystr) :
  startswith (lit "---" ++ [LF]) text = true ->
  header_region text = Some h ->
  startswith (lit "---" ++ [LF]) h = true.
Proof.
  intros Hopen Hreg. destruct (startswith_inv _ _ Hopen) as [r ->].
  unfold header_region in Hreg.
  replace (opens_header ((lit "---" ++ [LF]) ++ r)) with true in Hreg by reflexivity.
  rewrite splitlines_lf_opening in Hreg.
  destruct (upto_close (splitlines r)) as [h0|]; [|discriminate].
  injection Hreg as <-. exact (startswith_app (lit "---" ++ [LF]) h0).
Qed.

(** C5: in a text without carriage returns, which is what the program reads,
    the header region (the opening delimiter line, itself a bare three-dash
    line, up to and including the first closing line) comes out of
    [apply_page_breaks] exactly as it went in, and what follows it comes out
    converted line by line; a text with no header region is converted line
    by line as a whole.  Converting a line turns three hyphens with nothing
    but spaces and tabs around them into the page-break directive and leaves
    every other line as it is. *)
Theorem apply_page_breaks_spec (md_text : pystr) :
  ~ In CR md_text ->
  (forall h, header_region (lstrip_char BOM md_text) = Some h ->
     startswith (lit "---" ++ [LF]) h = true /\
     exists body,
       lstrip_char BOM md_text = h ++ body /\
       apply_page_breaks md_text = h ++ join_lf (map convert_line (split_lf body))) /\
  (header_region (lstrip_char BOM md_text) = None ->
     apply_page_breaks md_text = join_lf (map convert_line (split_lf md_text))) /\
  (forall l,
     (exists a b, l = a ++ lit "---" ++ b /\
                  forallb is_blank a = true /\ forallb is_blank b = true) ->
     convert_line l = NEWPAGE) /\
  (forall l,
     ~ (exists a b, l = a ++ lit "---" ++ b /\
                    forallb is_blank a = true /\ forallb is_blank b = true) ->
     convert_line l = l).
Proof.
  intros Hcr. repeat split.
  - assert (Hopen : startswith (lit "---" ++ [LF]) (lstrip_char BOM md_text) = true).
    { apply opens_header_no_cr.
      - intros Hin. apply Hcr. exact (lstrip_by_incl _ _ _ Hin).
      - unfold header_region in H.
        destruct (opens_header (lstrip_char BOM md_text)); [reflexivity | discriminate]. }
    exact (header_region_lf_opening _ _ Hopen H).
  - assert (Hopen : startswith (lit "---" ++ [LF]) (lstrip_char BOM md_text) = true).
    { apply opens_header_no_cr.
      - intros Hin. apply Hcr. exact (lstrip_by_incl _ _ _ Hin).
      - unfold header_region in H.
        destruct (opens_header (lstrip_char BOM md_text)); [reflexivity | discriminate]. }
    exact (apply_page_breaks_lf_header md_text h Hopen H).
  - intros Hreg. rewrite apply_page_breaks_lines, (split_yaml_header_no_region _ Hreg).
    reflexivity.
  - intros l Hl. unfold convert_line.
    now rewrite (proj2 (is_pagebreak_line_iff l) Hl).
  - intros l Hl. unfold convert_line.
    destruct (is_pagebreak_line l) eqn:E; [|reflexivity].
    exfalso. apply Hl. now apply is_pagebreak_line_iff.
Qed.

(** A header with a mark before it and a three-dash line after it: the
    header comes through, the line of the body becomes the directive. *)
Lemma apply_page_breaks_spec_witness :
  exists body,
    lstrip_char BOM (doc_with_bom ++ lit " ---" ++ [TAB; LF] ++ lit "end")
      = (lit "---" ++ [LF] ++ lit "title: x" ++ [LF] ++ lit "---" ++ [LF]) ++ body /\
    apply_page_breaks (doc_with_bom ++ lit " ---" ++ [TAB; LF] ++ lit "end")
      = (lit "---" ++ [LF] ++ lit "title: x" ++ [LF] ++ lit "---" ++ [LF])
          ++ join_lf (map convert_line (split_lf body)) /\
    convert_line (lit " ---" ++ [TAB]) = NEWPAGE.
Proof.
  destruct (apply_page_breaks_spec (doc_with_bom ++ lit " ---" ++ [TAB; LF] ++ lit "end"))
    as (Hheader & _ & Hline & _).
  - vm_compute. intuition discriminate.
  - destruct (Hheader (lit "---" ++ [LF] ++ lit "title: x" ++ [LF] ++ lit "---" ++ [LF])
                eq_refl) as (_ & body & Htext & Happly).
    exists body. split; [exact Htext | split; [exact Happly |]].
    apply Hline. exists [SPACE], [TAB]. repeat split.
Defined.

(** Carriage returns, which no text read by the program has: with CR LF
    line ends the header that [split_yaml_header] rebuilds opens with
    [---LF], the constant of line 103, and so does what [apply_page_breaks]
    returns. *)
Lemma apply_page_breaks_crlf_header :
  header_region (lstrip_char BOM doc_crlf)
    = Some (lit "---" ++ [CR; LF] ++ lit "title: x" ++ [CR; LF] ++ lit "---" ++ [CR; LF]) /\
  apply_page_breaks doc_crlf
    = lit "---" ++ [LF] ++ lit "title: x" ++ [CR; LF] ++ lit "---" ++ [CR; LF]
        ++ lit "body" ++ [CR; LF].
Proof. repeat split. Qed.

(** The same document with LF line ends keeps its header, and a three-dash
    line of the body becomes the directive. *)
Lemma apply_page_breaks_lf_example :
  apply_page_breaks
    (lit "---" ++ [LF] ++ lit "title: x" ++ [LF] ++ lit "---" ++ [LF]
       ++ lit "one" ++ [LF] ++ lit " ---" ++ [TAB; LF] ++ lit "two")
  = lit "---" ++ [LF] ++ lit "title: x" ++ [LF] ++ lit "---" ++ [LF]
       ++ lit "one" ++ [LF] ++ NEWPAGE ++ [LF] ++ lit "two".
Proof. reflexivity. Qed.

(** * Further properties of the code *)

(** ** The regular-expression matcher *)

Lemma last_read_snoc (prev : option char) (a : pystr) (c : char) :
  last_read prev (a ++ [c]) = Some c.
Proof. unfold last_read. now rewrite rev_app_distr. Qed.

Lemma last_read_cons (prev : option char) (c : char) (a : pystr) :
  last_read prev (c :: a) = last_read (Some c) a.
Proof.
  unfold last_read. cbn [rev]. destruct (rev a) as [|x l] eqn:E; reflexivity.
Qed.

Lemma accept_bounded : Bounded accept 0.
Proof. intros prev s pos marks e ms [= <- <-]. lia. Qed.

Lemma star_greedy_bounded (p : char -> bool) (k : Cont) (n : nat) :
  Bounded k n -> Bounded (star_greedy p k) n.
Proof.
  intros Hk prev s. revert prev.
  induction s as [|c s IH]; intros prev pos marks e ms H; cbn [star_greedy] in H.
  - now apply Hk in H.
  - destruct (p c); [|now apply Hk in H].
    destruct (star_greedy p k (Some c) s (S pos) marks) as [[e' ms']|] eqn:E.
    + injection H as <- <-. apply IH in E. cbn [length]. lia.
    + now apply Hk in H.
Qed.

Lemma star_lazy_bounded (p : char -> bool) (k : Cont) (n : nat) :
  Bounded k n -> Bounded (star_lazy p k) n.
Proof.
  intros Hk prev s. revert prev.
  induction s as [|c s IH]; intros prev pos marks e ms H; cbn [star_lazy] in H.
  - destruct (k prev [] pos marks) as [[e' ms']|] eqn:E; [|discriminate].
    injection H as <- <-. now apply Hk in E.
  - destruct (k prev (c :: s) pos marks) as [[e' ms']|] eqn:E.
    + injection H as <- <-. now apply Hk in E.
    + destruct (p c); [|discriminate]. apply IH in H. cbn [length]. lia.
Qed.

Lemma matcher_bounded (tb : ReTables) (r : Regex) :
  forall k n, Bounded k n -> Bounded (matcher tb r k) (n + count_chr r).
Proof.
  induction r as [|a r IH]; intros k n Hk; cbn [matcher count_chr].
  - now rewrite Nat.add_0_r.
  - destruct a.
    + intros prev s pos marks e ms H.
      destruct s as [|c s]; [discriminate|]. destruct (p c); [|discriminate].
      apply (IH k n Hk) in H. cbn [length]. lia.
    + apply star_greedy_bounded, IH, Hk.
    + apply star_lazy_bounded, IH, Hk.
    + intros prev s pos marks e ms H.
      destruct (at_boundary tb prev s); [|discriminate]. now apply (IH k n Hk) in H.
    + intros prev s pos marks e ms H. now apply (IH k n Hk) in H.
Qed.

Lemma match_at_bounds (tb : ReTables) (r : Regex) (prev : option char) (s : pystr)
    (pos : nat) (m : Match) :
  match_at tb r prev s pos = Some m ->
  m_start m = pos /\ pos + count_chr r <= m_end m /\ m_end m <= pos + length s.
Proof.
  unfold match_at.
  destruct (matcher tb r accept prev s pos []) as [[e ms]|] eqn:E; [|discriminate].
  intros [= <-]. cbn [m_start m_end].
  apply (matcher_bounded tb r accept 0 accept_bounded) in E. cbn in E. lia.
Qed.

Lemma finditer_from_matches (tb : ReTables) (r : Regex) (s : pystr) :
  forall prev pos skip,
    matches_from r (pos + length s) (pos + skip) (finditer_from tb r prev pos skip s).
Proof.
  induction s as [|c s IH]; intros prev pos skip; cbn [finditer_from].
  - destruct skip; [|exact I].
    destruct (match_at tb r prev [] pos) as [m|] eqn:E; [|exact I].
    apply match_at_bounds in E as (Hs & Hlo & Hhi). cbn [matches_from length] in *.
    repeat split; try lia.
  - destruct skip as [|skip].
    + destruct (match_at tb r prev (c :: s) pos) as [m|] eqn:E.
      * apply match_at_bounds in E as (Hs & Hlo & Hhi). cbn [matches_from length] in *.
        repeat split; try lia.
        specialize (IH (Some c) (S pos) (m_end m - pos - 1)).
        replace (S pos + length s) with (pos + S (length s)) in IH by lia.
        replace (S pos + (m_end m - pos - 1)) with (Nat.max (m_end m) (S (m_start m))) in IH
          by lia.
        exact IH.
      * specialize (IH (Some c) (S pos) 0). cbn [length].
        replace (S pos + length s) with (pos + S (length s)) in IH by lia.
        assert (Hmono : forall n lo lo' l, lo' <= lo -> matches_from r n lo l ->
                                           matches_from r n lo' l).
        { intros n lo lo' [|m l] Hle; cbn [matches_from]; [auto|].
          intros (H1 & H2 & H3 & H4). repeat split; auto; lia. }
        apply (Hmono _ (S pos + 0)); [lia | exact IH].
    + specialize (IH (Some c) (S pos) skip). cbn [length].
      replace (S pos + length s) with (pos + S (length s)) in IH by lia.
      replace (S pos + skip) with (pos + S skip) in IH by lia. exact IH.
Qed.

Lemma finditer_matches (tb : ReTables) (r : Regex) (text : pystr) :
  matches_from r (length text) 0 (finditer tb r text).
Proof. exact (finditer_from_matches tb r text None 0 0). Qed.

(** *** Taking a match apart *)

Lemma matcher_chrs (tb : ReTables) (ps : list (char -> bool)) (r : Regex) (k : Cont) :
  forall prev s pos marks x,
    matcher tb (map Chr ps ++ r) k prev s pos marks = Some x ->
    exists a s',
      s = a ++ s' /\ word_matches ps a /\
      matcher tb r k (last_read prev a) s' (pos + length a) marks = Some x.
Proof.
  induction ps as [|p ps IH]; intros prev s pos marks x H.
  - exists [], s. cbn. rewrite Nat.add_0_r. repeat split; [constructor | exact H].
  - cbn [map app matcher] in H. destruct s as [|c s]; [discriminate|].
    destruct (p c) eqn:Ep; [|discriminate].
    apply IH in H as (a & s' & -> & Ha & H).
    exists (c :: a), s'. rewrite last_read_cons. cbn [length app].
    replace (pos + S (length a)) with (S pos + length a) by lia.
    repeat split; [now constructor | exact H].
Qed.

Lemma matcher_chrs_complete (tb : ReTables) (ps : list (char -> bool)) (r : Regex) (k : Cont) :
  forall a prev s' pos marks,
    word_matches ps a ->
    matcher tb (map Chr ps ++ r) k prev (a ++ s') pos marks
      = matcher tb r k (last_read prev a) s' (pos + length a) marks.
Proof.
  induction ps as [|p ps IH]; intros a prev s' pos marks Ha; inversion Ha; subst.
  - cbn. now rewrite Nat.add_0_r.
  - cbn [map app matcher length]. rewrite H1, IH by assumption.
    rewrite last_read_cons. f_equal. lia.
Qed.

Lemma star_greedy_inv (p : char -> bool) (k : Cont) (s : pystr) :
  forall prev pos marks x,
    star_greedy p k prev s pos marks = Some x ->
    exists a s',
      s = a ++ s' /\ forallb p a = true /\
      k (last_read prev a) s' (pos + length a) marks = Some x.
Proof.
  induction s as [|c s IH]; intros prev pos marks x H; cbn [star_greedy] in H.
  - exists [], []. cbn. rewrite Nat.add_0_r. auto.
  - assert (Hstop : k prev (c :: s) pos marks = Some x ->
                    exists a s', c :: s = a ++ s' /\ forallb p a = true /\
                                 k (last_read prev a) s' (pos + length a) marks = Some x).
    { intros Hk. exists [], (c :: s). cbn. rewrite Nat.add_0_r. auto. }
    destruct (p c) eqn:Ep; [|now apply Hstop].
    destruct (star_greedy p k (Some c) s (S pos) marks) as [r|] eqn:E; [|now apply Hstop].
    injection H as ->. apply IH in E as (a & s' & -> & Ha & Hk).
    exists (c :: a), s'. rewrite last_read_cons. cbn [length app forallb].
    rewrite Ep, Ha. replace (pos + S (length a)) with (S pos + length a) by lia. auto.
Qed.

Lemma star_lazy_inv (p : char -> bool) (k : Cont) (s : pystr) :
  forall prev pos marks x,
    star_lazy p k prev s pos marks = Some x ->
    exists a s',
      s = a ++ s' /\ forallb p a = true /\
      k (last_read prev a) s' (pos + length a) marks = Some x /\
      forall j, j < length a ->
                k (last_read prev (firstn j a)) (skipn j s) (pos + j) marks = None.
Proof.
  induction s as [|c s IH]; intros prev pos marks x H; cbn [star_lazy] in H.
  - destruct (k prev [] pos marks) as [r|] eqn:E; [|discriminate].
    injection H as ->. exists [], []. cbn. rewrite Nat.add_0_r.
    repeat split; auto. intros j Hj. inversion Hj.
  - destruct (k prev (c :: s) pos marks) as [r|] eqn:E.
    + injection H as ->. exists [], (c :: s). cbn. rewrite Nat.add_0_r.
      repeat split; auto. intros j Hj. inversion Hj.
    + destruct (p c) eqn:Ep; [|discriminate].
      apply IH in H as (a & s' & -> & Ha & Hk & Hlazy).
      exists (c :: a), s'. rewrite last_read_cons. cbn [length app forallb].
      rewrite Ep, Ha. replace (pos + S (length a)) with (S pos + length a) by lia.
      repeat split; auto.
      intros [|j] Hj.
      * cbn. rewrite Nat.add_0_r. exact E.
      * cbn [firstn skipn]. rewrite last_read_cons.
        replace (pos + S j) with (S pos + j) by lia. apply Hlazy. lia.
Qed.

Lemma word_matches_length (ps : list (char -> bool)) (a : pystr) :
  word_matches ps a -> length a = length ps.
Proof. intros H. symmetry. exact (Forall2_length H). Qed.

Lemma word_matches_literal (l a : pystr) :
  word_matches (map char_eqb l) a -> a = l.
Proof.
  revert a. induction l as [|c l IH]; intros a H; inversion H; subst; [reflexivity|].
  apply char_eqb_eq in H2. subst. f_equal. now apply IH.
Qed.

(** Every match of [finditer] is a match at its start. *)
Lemma finditer_from_match_at (tb : ReTables) (r : Regex) (s : pystr) :
  forall prev pos skip m,
    In m (finditer_from tb r prev pos skip s) ->
    pos <= m_start m /\ m_start m <= pos + length s /\
    exists prev', match_at tb r prev' (skipn (m_start m - pos) s) (m_start m) = Some m.
Proof.
  induction s as [|c s IH]; intros prev pos skip m Hin; cbn [finditer_from] in Hin.
  - destruct skip; [|contradiction].
    destruct (match_at tb r prev [] pos) as [m'|] eqn:E; [|contradiction].
    destruct Hin as [<-|[]]. pose proof (match_at_bounds _ _ _ _ _ _ E) as (Hs & _).
    rewrite Hs. replace (pos - pos) with 0 by lia. cbn. repeat split; try lia.
    now exists prev.
  - assert (Htail : forall prev' skip',
               In m (finditer_from tb r prev' (S pos) skip' s) ->
               pos <= m_start m /\ m_start m <= pos + length (c :: s) /\
               exists prev'', match_at tb r prev'' (skipn (m_start m - pos) (c :: s))
                                       (m_start m) = Some m).
    { intros prev' skip' H. apply IH in H as (H1 & H2 & prev'' & H3).
      cbn [length]. repeat split; try lia. exists prev''.
      replace (m_start m - pos) with (S (m_start m - S pos)) by lia. exact H3. }
    destruct skip as [|skip]; [|now apply Htail in Hin].
    destruct (match_at tb r prev (c :: s) pos) as [m'|] eqn:E; [|now apply Htail in Hin].
    destruct Hin as [<-|Hin]; [|now apply Htail in Hin].
    pose proof (match_at_bounds _ _ _ _ _ _ E) as (Hs & _).
    rewrite Hs. replace (pos - pos) with 0 by lia. cbn [skipn length].
    repeat split; try lia. now exists prev.
Qed.

Lemma finditer_match_at (tb : ReTables) (r : Regex) (text : pystr) (m : Match) :
  In m (finditer tb r text) ->
  m_start m <= length text /\
  exists prev, match_at tb r prev (skipn (m_start m) text) (m_start m) = Some m.
Proof.
  intros H. apply finditer_from_match_at in H as (_ & H2 & prev & H3).
  rewrite Nat.sub_0_r in H3. split; [exact H2 | now exists prev].
Qed.

(** *** The two patterns *)

Lemma re_startend_shape (tb : ReTables) :
  RE_STARTEND tb =
    Mark :: map Chr (startuml_chars tb)
      ++ WordBoundary :: StarLazy any_char :: map Chr (enduml_chars tb) ++ [Mark].
Proof. reflexivity. Qed.

Lemma re_fenced_shape (tb : ReTables) :
  RE_FENCED tb =
    Mark :: map Chr (map char_eqb (lit "```"))
      ++ StarGreedy is_whitespace :: map Chr (plantuml_chars tb)
      ++ StarGreedy not_lf :: map Chr [char_eqb LF]
      ++ Mark :: Mark :: StarLazy any_char :: Mark :: Mark
      :: map Chr (map char_eqb ([LF] ++ lit "```")) ++ [Mark].
Proof. reflexivity. Qed.

Lemma count_chr_startend (tb : ReTables) : count_chr (RE_STARTEND tb) = 16.
Proof. reflexivity. Qed.

Lemma count_chr_fenced (tb : ReTables) : count_chr (RE_FENCED tb) = 16.
Proof. reflexivity. Qed.

(** A match of the start/end pattern: the opening word, a word boundary, the
    shortest text up to a closing word, the closing word. *)
Lemma startend_inv (tb : ReTables) (prev : option char) (s : pystr) (pos : nat) (m : Match) :
  match_at tb (RE_STARTEND tb) prev s pos = Some m ->
  exists w1 mid w2 rest,
    s = w1 ++ mid ++ w2 ++ rest /\
    word_matches (startuml_chars tb) w1 /\
    word_matches (enduml_chars tb) w2 /\
    at_boundary tb (last_read prev w1) (mid ++ w2 ++ rest) = true /\
    m_start m = pos /\
    m_end m = pos + length (w1 ++ mid ++ w2) /\
    m_marks m = [pos; m_end m] /\
    (forall j w t, j < length mid -> skipn j (mid ++ w2 ++ rest) = w ++ t ->
                   ~ word_matches (enduml_chars tb) w).
Proof.
  unfold match_at. rewrite re_startend_shape.
  destruct (matcher _ _ _ _ _ _ _) as [[e ms]|] eqn:E; [|discriminate].
  intros [= <-]. cbn [m_start m_end m_marks].
  change (matcher tb (Mark :: ?r) accept prev s pos [])
    with (matcher tb r accept prev s pos [pos]) in E.
  apply matcher_chrs in E as (w1 & s1 & -> & Hw1 & E).
  change (matcher tb (WordBoundary :: StarLazy any_char :: ?r) accept ?p ?t ?n ?ms')
    with (if at_boundary tb p t then star_lazy any_char (matcher tb r accept) p t n ms'
          else None) in E.
  destruct (at_boundary tb (last_read prev w1) s1) eqn:Hb; [|discriminate].
  apply star_lazy_inv in E as (mid & s2 & -> & _ & E & Hlazy).
  apply matcher_chrs in E as (w2 & rest & -> & Hw2 & E).
  cbn in E. injection E as <- <-.
  exists w1, mid, w2, rest. repeat split; auto.
  - rewrite !length_app. lia.
  - intros j w t Hj Hsk Hw. specialize (Hlazy j Hj). rewrite Hsk in Hlazy.
    rewrite matcher_chrs_complete in Hlazy by exact Hw. discriminate.
Qed.

(** A match of the fenced pattern: the opening line (three backticks, white
    space, the language tag, the rest of the line), the shortest code up to a
    closing fence, the closing fence. *)
Lemma fenced_inv (tb : ReTables) (prev : option char) (s : pystr) (pos : nat) (m : Match) :
  match_at tb (RE_FENCED tb) prev s pos = Some m ->
  exists ws tag info body rest,
    s = (lit "```" ++ ws ++ tag ++ info ++ [LF]) ++ body ++ ([LF] ++ lit "```") ++ rest /\
    forallb is_whitespace ws = true /\
    word_matches (plantuml_chars tb) tag /\
    forallb not_lf info = true /\
    m_start m = pos /\
    m_end m = pos + length (lit "```" ++ ws ++ tag ++ info ++ [LF]) + length body + 4 /\
    group_start 2 m = pos + length (lit "```" ++ ws ++ tag ++ info ++ [LF]) /\
    group_end 2 m = group_start 2 m + length body /\
    (forall j, j < length body ->
               startswith ([LF] ++ lit "```") (skipn j (body ++ ([LF] ++ lit "```") ++ rest))
               = false).
Proof.
  unfold match_at. rewrite re_fenced_shape.
  destruct (matcher _ _ _ _ _ _ _) as [[e ms]|] eqn:E; [|discriminate].
  intros [= <-]. unfold group_start, group_end. cbn [m_start m_end m_marks].
  change (matcher tb (Mark :: ?r) accept prev s pos [])
    with (matcher tb r accept prev s pos [pos]) in E.
  apply matcher_chrs in E as (ticks & s1 & -> & Hticks & E).
  apply word_matches_literal in Hticks. subst ticks.
  change (matcher tb (StarGreedy is_whitespace :: ?r) accept)
    with (star_greedy is_whitespace (matcher tb r accept)) in E.
  apply star_greedy_inv in E as (ws & s2 & -> & Hws & E).
  apply matcher_chrs in E as (tag & s3 & -> & Htag & E).
  change (matcher tb (StarGreedy not_lf :: ?r) accept)
    with (star_greedy not_lf (matcher tb r accept)) in E.
  apply star_greedy_inv in E as (info & s4 & -> & Hinfo & E).
  apply matcher_chrs in E as (nl & s5 & -> & Hnl & E).
  apply (word_matches_literal [LF]) in Hnl. subst nl.
  change (matcher tb (Mark :: Mark :: StarLazy any_char :: ?r) accept ?p ?t ?n ?ms')
    with (star_lazy any_char (matcher tb r accept) p t n ((ms' ++ [n]) ++ [n])) in E.
  apply star_lazy_inv in E as (body & s6 & -> & _ & E & Hlazy).
  change (matcher tb (Mark :: Mark :: ?r) accept ?p ?t ?n ?ms')
    with (matcher tb r accept p t n ((ms' ++ [n]) ++ [n])) in E.
  apply matcher_chrs in E as (close & rest & -> & Hclose & E).
  apply word_matches_literal in Hclose. subst close.
  cbn in E. injection E as <- <-.
  exists ws, tag, info, body, rest.
  repeat split; auto.
  - repeat rewrite <- app_assoc. reflexivity.
  - rewrite ?length_app. cbn. lia.
  - rewrite ?length_app. cbn. lia.
  - intros j Hj. specialize (Hlazy j Hj).
    destruct (startswith ([LF] ++ lit "```") (skipn j (body ++ ([LF] ++ lit "```") ++ rest)))
      eqn:Es; [|reflexivity].
    apply startswith_inv in Es as [t Ht]. rewrite Ht in Hlazy.
    change (matcher tb (Mark :: Mark :: ?r) accept ?p ?t ?n ?ms')
      with (matcher tb r accept p t n ((ms' ++ [n]) ++ [n])) in Hlazy.
    rewrite matcher_chrs_complete in Hlazy; [discriminate|].
    clear. unfold word_matches. repeat constructor; apply char_eqb_refl.
Qed.

(** ** The block locator *)

Lemma insert_by_start_perm (b : Block) (l : list Block) :
  Permutation (insert_by_start b l) (b :: l).
Proof.
  induction l as [|x l IH]; cbn [insert_by_start]; [reflexivity|].
  destruct (fst (span b) <=? fst (span x)); [reflexivity|].
  rewrite IH. apply perm_swap.
Qed.

Lemma sort_by_start_perm (l : list Block) : Permutation (sort_by_start l) l.
Proof.
  induction l as [|b l IH]; cbn [sort_by_start fold_right]; [reflexivity|].
  now rewrite insert_by_start_perm, IH.
Qed.

Lemma insert_by_start_sorted (b : Block) (l : list Block) :
  Sorted starts_before l -> Sorted starts_before (insert_by_start b l).
Proof.
  induction 1 as [|x l Hl IH Hx]; cbn [insert_by_start]; [repeat constructor|].
  destruct (fst (span b) <=? fst (span x)) eqn:E.
  - apply Nat.leb_le in E. repeat constructor; assumption.
  - apply Nat.leb_gt in E. constructor; [exact IH|].
    destruct l as [|y l]; cbn [insert_by_start].
    + constructor. unfold starts_before. lia.
    + inversion Hx; subst. destruct (fst (span b) <=? fst (span y));
        constructor; [unfold starts_before; lia | assumption].
Qed.

Lemma sort_by_start_sorted (l : list Block) : Sorted starts_before (sort_by_start l).
Proof.
  induction l as [|b l IH]; cbn [sort_by_start fold_right]; [constructor|].
  now apply insert_by_start_sorted.
Qed.

(** X1: the locator returns the matches of the two patterns, every one of
    them once, in the order of their start offsets. *)
Theorem find_uml_blocks_sorted (tb : ReTables) (md_text : pystr) :
  Permutation (find_uml_blocks tb md_text)
              (map (fenced_block md_text) (finditer tb (RE_FENCED tb) md_text)
                 ++ map (startend_block md_text) (finditer tb (RE_STARTEND tb) md_text)) /\
  StronglySorted starts_before (find_uml_blocks tb md_text).
Proof.
  split.
  - apply sort_by_start_perm.
  - apply Sorted_StronglySorted.
    + intros a b c. unfold starts_before. lia.
    + apply sort_by_start_sorted.
Qed.

Lemma slice_split (a e : nat) (text : pystr) :
  a <= e -> e <= length text ->
  text = firstn a text ++ slice a e text ++ skipn e text.
Proof.
  intros Hae He. unfold slice.
  pose proof (firstn_skipn (e - a) (skipn a text)) as H.
  rewrite skipn_skipn in H. replace (e - a + a) with e in H by lia.
  rewrite H. symmetry. apply firstn_skipn.
Qed.

Lemma slice_app (a n : nat) (text x rest : pystr) :
  skipn a text = x ++ rest -> length x = n -> slice a (a + n) text = x.
Proof.
  intros H Hn. unfold slice. rewrite H.
  replace (a + n - a) with (length x) by lia. apply firstn_length_app.
Qed.

Lemma skipn_app_more (a n : nat) (text x rest : pystr) :
  skipn a text = x ++ rest -> length x = n -> skipn (a + n) text = rest.
Proof.
  intros H Hn. rewrite Nat.add_comm, <- skipn_skipn, H, <- Hn. apply skipn_length_app.
Qed.

(** Where a block of the result comes from. *)
Lemma find_uml_blocks_in (tb : ReTables) (md_text : pystr) (b : Block) :
  In b (find_uml_blocks tb md_text) ->
  (exists m, In m (finditer tb (RE_FENCED tb) md_text) /\ b = fenced_block md_text m) \/
  (exists m, In m (finditer tb (RE_STARTEND tb) md_text) /\ b = startend_block md_text m).
Proof.
  intros H. apply (Permutation_in _ (sort_by_start_perm _)) in H.
  apply in_app_or in H as [H|H]; apply in_map_iff in H as (m & <- & Hm);
    [left | right]; now exists m.
Qed.

(** The span of a start/end block is the span of its match. *)
Lemma startend_match_span (tb : ReTables) (md_text : pystr) (m : Match) :
  In m (finditer tb (RE_STARTEND tb) md_text) ->
  group_start 1 m = m_start m /\ group_end 1 m = m_end m.
Proof.
  intros H. apply finditer_match_at in H as (_ & prev & H).
  apply startend_inv in H as (w1 & mid & w2 & rest & _ & _ & _ & _ & Hs & _ & Hm & _).
  unfold group_start, group_end. rewrite Hm. split; reflexivity.
Qed.

Lemma finditer_bounds (tb : ReTables) (r : Regex) (text : pystr) (m : Match) :
  In m (finditer tb r text) ->
  m_start m + count_chr r <= m_end m /\ m_end m <= length text.
Proof.
  intros H. apply finditer_match_at in H as (Hlen & prev & H).
  apply match_at_bounds in H as (_ & Hlo & Hhi).
  rewrite length_skipn in Hhi. lia.
Qed.

Lemma block_span (tb : ReTables) (md_text : pystr) (b : Block) :
  In b (find_uml_blocks tb md_text) ->
  fst (span b) + 16 <= snd (span b) /\
  snd (span b) <= length md_text /\
  original b = slice (fst (span b)) (snd (span b)) md_text /\
  md_text = firstn (fst (span b)) md_text ++ original b ++ skipn (snd (span b)) md_text.
Proof.
  intros H.
  assert (Hb : fst (span b) + 16 <= snd (span b) /\ snd (span b) <= length md_text /\
               original b = slice (fst (span b)) (snd (span b)) md_text).
  { apply find_uml_blocks_in in H as [(m & Hm & ->) | (m & Hm & ->)].
    - pose proof (finditer_bounds _ _ _ _ Hm) as [Hlo Hhi].
      rewrite count_chr_fenced in Hlo. cbn [fenced_block span original fst snd].
      repeat split; assumption.
    - pose proof (finditer_bounds _ _ _ _ Hm) as [Hlo Hhi].
      destruct (startend_match_span _ _ _ Hm) as [Hs He].
      rewrite count_chr_startend in Hlo.
      cbn [startend_block span original fst snd]. unfold group.
      rewrite Hs, He. repeat split; assumption. }
  destruct Hb as (Hlo & Hhi & Horig). repeat split; try assumption.
  rewrite Horig. apply slice_split; lia.
Qed.

(** X2: the span of every block lies inside the document and holds at least
    sixteen characters, and the original text of the block is the document
    between the two ends of the span; so it occurs in the document. *)
Theorem find_uml_blocks_span (tb : ReTables) (md_text : pystr) (b : Block) :
  In b (find_uml_blocks tb md_text) ->
  fst (span b) + 16 <= snd (span b) /\
  snd (span b) <= length md_text /\
  original b = slice (fst (span b)) (snd (span b)) md_text /\
  md_text = firstn (fst (span b)) md_text ++ original b ++ skipn (snd (span b)) md_text.
Proof. apply block_span. Qed.

Lemma matches_from_lower (r : Regex) (n : nat) (l : list Match) :
  forall lo m, matches_from r n lo l -> In m l -> lo <= m_start m.
Proof.
  induction l as [|x l IH]; intros lo m Hl Hin; [contradiction|].
  cbn [matches_from] in Hl. destruct Hl as (H1 & H2 & H3 & H4).
  destruct Hin as [<-|Hin]; [exact H1|].
  specialize (IH _ _ H4 Hin). lia.
Qed.

Lemma matches_from_disjoint (r : Regex) (n : nat) (l : list Match) :
  0 < count_chr r ->
  forall lo m1 m2, matches_from r n lo l -> In m1 l -> In m2 l ->
    m1 = m2 \/ m_end m1 <= m_start m2 \/ m_end m2 <= m_start m1.
Proof.
  intros Hpos. induction l as [|x l IH]; intros lo m1 m2 Hl H1 H2; [contradiction|].
  cbn [matches_from] in Hl. destruct Hl as (Ha & Hb & Hc & Hd).
  destruct H1 as [<-|H1], H2 as [<-|H2].
  - now left.
  - right; left. pose proof (matches_from_lower _ _ _ _ _ Hd H2). lia.
  - right; right. pose proof (matches_from_lower _ _ _ _ _ Hd H1). lia.
  - exact (IH _ _ _ Hd H1 H2).
Qed.

(** X3: two blocks of the same dialect never overlap: they are the same
    block, or one ends before the other starts. *)
Theorem find_uml_blocks_same_kind_disjoint (tb : ReTables) (md_text : pystr) (b1 b2 : Block) :
  In b1 (find_uml_blocks tb md_text) ->
  In b2 (find_uml_blocks tb md_text) ->
  kind b1 = kind b2 ->
  b1 = b2 \/ disjoint_spans b1 b2.
Proof.
  intros H1 H2 Hk. unfold disjoint_spans.
  apply find_uml_blocks_in in H1 as [(m1 & Hm1 & ->) | (m1 & Hm1 & ->)];
    apply find_uml_blocks_in in H2 as [(m2 & Hm2 & ->) | (m2 & Hm2 & ->)];
    try discriminate Hk.
  - destruct (matches_from_disjoint (RE_FENCED tb) _ _ ltac:(rewrite count_chr_fenced; lia)
                _ _ _ (finditer_matches tb _ md_text) Hm1 Hm2) as [-> | H];
      [now left | right; exact H].
  - destruct (startend_match_span _ _ _ Hm1) as [Hs1 He1].
    destruct (startend_match_span _ _ _ Hm2) as [Hs2 He2].
    destruct (matches_from_disjoint (RE_STARTEND tb) _ _ ltac:(rewrite count_chr_startend; lia)
                _ _ _ (finditer_matches tb _ md_text) Hm1 Hm2) as [-> | H];
      [now left | right].
    cbn [startend_block span fst snd]. rewrite Hs1, He1, Hs2, He2. exact H.
Qed.

(** X4: a fenced block is its opening line (three backticks, white space,
    the language tag in any case, the rest of the line), its code and the
    closing fence; the code is the text up to the first closing fence. *)
Theorem find_uml_blocks_fenced (tb : ReTables) (md_text : pystr) (b : Block) :
  In b (find_uml_blocks tb md_text) ->
  kind b = Fenced ->
  exists ws tag info,
    original b = (lit "```" ++ ws ++ tag ++ info ++ [LF]) ++ code b ++ [LF] ++ lit "```" /\
    forallb is_whitespace ws = true /\
    word_matches (plantuml_chars tb) tag /\
    forallb not_lf info = true /\
    (forall pre post,
        code b ++ [LF] ++ lit "```" = pre ++ ([LF] ++ lit "```") ++ post ->
        pre = code b /\ post = []).
Proof.
  intros H Hk.
  apply find_uml_blocks_in in H as [(m & Hm & ->) | (m & Hm & ->)]; [|discriminate Hk].
  apply finditer_match_at in Hm as (_ & prev & Hm).
  apply fenced_inv in Hm
    as (ws & tag & info & body & rest & Hs & Hws & Htag & Hinfo & _ & He & Hgs & Hge & Hlazy).
  set (opening := lit "```" ++ ws ++ tag ++ info ++ [LF]) in *.
  assert (Hcode : code (fenced_block md_text m) = body).
  { cbn [fenced_block code]. unfold group. rewrite Hge, Hgs.
    apply (slice_app _ _ _ _ (([LF] ++ lit "```") ++ rest)); [|reflexivity].
    apply (skipn_app_more _ _ _ opening); [exact Hs | reflexivity]. }
  assert (Horig : original (fenced_block md_text m) = opening ++ body ++ [LF] ++ lit "```").
  { cbn [fenced_block original]. rewrite He.
    replace (m_start m + length opening + length body + 4)
      with (m_start m + length (opening ++ body ++ [LF] ++ lit "```"))
      by (rewrite !length_app; cbn; lia).
    apply (slice_app _ _ _ _ rest); [|reflexivity].
    rewrite Hs. now rewrite <- !app_assoc. }
  exists ws, tag, info. rewrite Hcode, Horig.
  split; [reflexivity|]. do 3 (split; [assumption|]).
  intros pre post H.
  assert (Hlen : length body = length pre + length post).
  { apply (f_equal (@length char)) in H. rewrite !length_app in H. cbn in H. lia. }
  destruct (Nat.eq_dec (length pre) (length body)) as [Heq | Hne].
  - split.
    + rewrite <- (firstn_length_app pre (([LF] ++ lit "```") ++ post)), <- H, Heq.
      apply firstn_length_app.
    + destruct post; [reflexivity | cbn in Hlen; lia].
  - exfalso. assert (Hlt : length pre < length body) by lia.
    specialize (Hlazy _ Hlt).
    replace (body ++ ([LF] ++ lit "```") ++ rest)
      with (pre ++ ([LF] ++ lit "```") ++ post ++ rest) in Hlazy.
    + rewrite skipn_length_app, startswith_app in Hlazy. discriminate.
    + rewrite (app_assoc body), H. now rewrite <- !app_assoc.
Qed.

Lemma block_startend (tb : ReTables) (md_text : pystr) (b : Block) :
  In b (find_uml_blocks tb md_text) ->
  kind b = StartEnd ->
  code b = original b /\
  exists w1 mid w2,
    original b = w1 ++ mid ++ w2 /\
    word_matches (startuml_chars tb) w1 /\
    word_matches (enduml_chars tb) w2 /\
    (forall j w t, j < length mid -> skipn j (mid ++ w2) = w ++ t ->
                   ~ word_matches (enduml_chars tb) w).
Proof.
  intros H Hk.
  apply find_uml_blocks_in in H as [(m & Hm & ->) | (m & Hm & ->)]; [discriminate Hk|].
  split; [reflexivity|].
  destruct (startend_match_span _ _ _ Hm) as [Hs He].
  apply finditer_match_at in Hm as (_ & prev & Hm).
  apply startend_inv in Hm
    as (w1 & mid & w2 & rest & Hsk & Hw1 & Hw2 & _ & _ & Hend & _ & Hlazy).
  exists w1, mid, w2. repeat split; try assumption.
  - cbn [startend_block original]. unfold group. rewrite Hs, He, Hend.
    apply (slice_app _ _ _ _ rest); [|reflexivity].
    rewrite Hsk. now rewrite <- !app_assoc.
  - intros j w t Hj Hskip. apply (Hlazy j w (t ++ rest) Hj).
    rewrite (app_assoc mid), skipn_app, Hskip.
    replace (j - length (mid ++ w2)) with 0 by (rewrite length_app; lia).
    cbn [skipn]. now rewrite <- app_assoc.
Qed.

(** X5: the code of a start/end block is its original text: the opening
    word, the shortest text up to a closing word, the closing word, both
    words in any case. *)
Theorem find_uml_blocks_startend (tb : ReTables) (md_text : pystr) (b : Block) :
  In b (find_uml_blocks tb md_text) ->
  kind b = StartEnd ->
  code b = original b /\
  exists w1 mid w2,
    original b = w1 ++ mid ++ w2 /\
    word_matches (startuml_chars tb) w1 /\
    word_matches (enduml_chars tb) w2 /\
    (forall j w t, j < length mid -> skipn j (mid ++ w2) = w ++ t ->
                   ~ word_matches (enduml_chars tb) w).
Proof. apply block_startend. Qed.

Lemma ascii_lower_ascii (c : char) : (c < 128)%N -> (ascii_lower c < 128)%N.
Proof.
  intros H. unfold ascii_lower.
  destruct ((65 <=? c) && (c <=? 90))%N eqn:E; [|exact H].
  apply andb_true_iff in E as [_ E]. apply N.leb_le in E. lia.
Qed.

(** On ASCII, matching a letter without regard to case is comparing lower
    cases: the companions of [i] and [s] are not ASCII. *)
Lemma ci_char_ascii (tb : ReTables) (p c : char) :
  lowers_ascii_simple tb -> (c < 128)%N -> ci_char tb p c = true -> ascii_lower c = p.
Proof.
  intros Htb Hc H. unfold ci_char in H. rewrite (Htb c Hc) in H.
  pose proof (ascii_lower_ascii c Hc) as Hl.
  apply orb_true_iff in H as [H|H]; [now apply char_eqb_eq in H|].
  exfalso. unfold sre_fixes in H.
  destruct (char_eqb p 105%N); [|destruct (char_eqb p 115%N)]; cbn [existsb] in H;
    try discriminate; rewrite orb_false_r in H; apply char_eqb_eq in H;
    rewrite H in Hl; vm_compute in Hl; discriminate.
Qed.

Lemma ci_word_ascii (tb : ReTables) (ps w : pystr) :
  lowers_ascii_simple tb ->
  Forall (fun c => (c < 128)%N) w ->
  word_matches (map (ci_char tb) ps) w ->
  map ascii_lower w = ps.
Proof.
  intros Htb. revert w. induction ps as [|p ps IH]; intros w Hw H; inversion H; subst.
  - reflexivity.
  - inversion Hw; subst. cbn [map]. f_equal.
    + now apply (ci_char_ascii tb).
    + now apply IH.
Qed.

Lemma at_word_ascii (tb : ReTables) (ps w : pystr) :
  lowers_ascii_simple tb ->
  Forall (fun c => (c < 128)%N) w ->
  word_matches (char_eqb 64%N :: map (ci_char tb) ps) w ->
  map ascii_lower w = 64%N :: ps.
Proof.
  intros Htb Hw H. inversion H; subst. inversion Hw; subst.
  apply char_eqb_eq in H2. subst. cbn [map]. f_equal.
  now apply (ci_word_ascii tb).
Qed.

Lemma lower_ascii_text (ucd : UCD) (s : pystr) :
  lowers_ascii ucd -> Forall (fun c => (c < 128)%N) s -> lower ucd s = map ascii_lower s.
Proof.
  intros Hucd Hs. unfold lower. rewrite <- (app_nil_r s) at 1.
  rewrite (do_lower_ascii_prefix ucd Hucd s Hs). cbn [do_lower]. apply app_nil_r.
Qed.

(** X6: in an ASCII document the code of a start/end block already carries
    both markers for [ensure_wrapped], which hands it on unchanged. *)
Theorem startend_code_is_wrapped (tb : ReTables) (ucd : UCD) (md_text : pystr) (b : Block) :
  lowers_ascii ucd ->
  lowers_ascii_simple tb ->
  Forall (fun c => (c < 128)%N) md_text ->
  In b (find_uml_blocks tb md_text) ->
  kind b = StartEnd ->
  ensure_wrapped ucd (code b) = code b.
Proof.
  intros Hucd Htb Htext Hin Hk.
  destruct (block_span tb md_text b Hin) as (_ & _ & _ & Hsplit).
  destruct (block_startend tb md_text b Hin Hk) as (-> & w1 & mid & w2 & Horig & Hw1 & Hw2 & _).
  rewrite Hsplit in Htext.
  apply Forall_app in Htext as [_ Htext]. apply Forall_app in Htext as [Htext _].
  unfold ensure_wrapped. rewrite (lower_ascii_text ucd _ Hucd Htext).
  rewrite Horig in Htext |- *.
  apply Forall_app in Htext as [H1 Htext]. apply Forall_app in Htext as [_ H2].
  rewrite !map_app.
  rewrite (at_word_ascii tb _ w1 Htb H1 Hw1), (at_word_ascii tb _ w2 Htb H2 Hw2).
  match goal with |- context [contains _ ?l] => set (low := l) end.
  assert (Hs : contains (lit "@startuml") low = true).
  { apply (contains_intro (lit "@startuml") [] (map ascii_lower mid ++ lit "@enduml")). }
  assert (He : contains (lit "@enduml") low = true).
  { replace low with ((lit "@startuml" ++ map ascii_lower mid) ++ lit "@enduml" ++ []).
    - apply contains_intro.
    - unfold low. rewrite app_nil_r, <- app_assoc. reflexivity. }
  now rewrite Hs, He.
Qed.

Lemma in_skipn (a : nat) (text : pystr) (c : char) : In c (skipn a text) -> In c text.
Proof.
  intros H. rewrite <- (firstn_skipn a text). apply in_or_app. now right.
Qed.

(** X7: a document with neither a backtick nor an at sign has no block. *)
Theorem find_uml_blocks_none (tb : ReTables) (md_text : pystr) :
  ~ In 96%N md_text ->
  ~ In 64%N md_text ->
  find_uml_blocks tb md_text = [].
Proof.
  intros Htick Hat.
  destruct (find_uml_blocks tb md_text) as [|b l] eqn:E; [reflexivity|].
  exfalso.
  assert (Hin : In b (find_uml_blocks tb md_text)) by (rewrite E; now left).
  apply find_uml_blocks_in in Hin as [(m & Hm & _) | (m & Hm & _)];
    apply finditer_match_at in Hm as (_ & prev & Hm).
  - apply fenced_inv in Hm as (ws & tag & info & body & rest & Hs & _).
    apply Htick, (in_skipn (m_start m)). rewrite Hs. now left.
  - apply startend_inv in Hm as (w1 & mid & w2 & rest & Hs & Hw1 & _).
    inversion Hw1 as [|p c ps w Hc Hw]; subst. apply char_eqb_eq in Hc. subst c.
    apply Hat, (in_skipn (m_start m)). rewrite Hs. now left.
Qed.

(** The sample document has a fenced block and two start/end blocks. *)
Lemma found_blocks :
  map (fun b => (span b, kind b)) (find_uml_blocks ascii_tables doc_two_dialects)
    = [((8, 47), Fenced); ((53, 83), StartEnd); ((89, 120), StartEnd)].
Proof. reflexivity. Qed.

Lemma find_uml_blocks_span_witness :
  fst (span (found_block 0)) + 16 <= snd (span (found_block 0)) /\
  snd (span (found_block 0)) <= length doc_two_dialects /\
  original (found_block 0)
    = slice (fst (span (found_block 0))) (snd (span (found_block 0))) doc_two_dialects /\
  doc_two_dialects
    = firstn (fst (span (found_block 0))) doc_two_dialects
        ++ original (found_block 0)
        ++ skipn (snd (span (found_block 0))) doc_two_dialects.
Proof.
  apply (find_uml_blocks_span ascii_tables doc_two_dialects (found_block 0)).
  vm_compute. left. reflexivity.
Defined.

Lemma find_uml_blocks_same_kind_disjoint_witness :
  found_block 1 = found_block 2 \/ disjoint_spans (found_block 1) (found_block 2).
Proof.
  apply (find_uml_blocks_same_kind_disjoint ascii_tables doc_two_dialects).
  - vm_compute. right. left. reflexivity.
  - vm_compute. right. right. left. reflexivity.
  - reflexivity.
Defined.

Lemma find_uml_blocks_fenced_witness :
  exists ws tag info,
    original (found_block 0)
      = (lit "```" ++ ws ++ tag ++ info ++ [LF]) ++ code (found_block 0) ++ [LF] ++ lit "```" /\
    forallb is_whitespace ws = true /\
    word_matches (plantuml_chars ascii_tables) tag /\
    forallb not_lf info = true /\
    (forall pre post,
        code (found_block 0) ++ [LF] ++ lit "```" = pre ++ ([LF] ++ lit "```") ++ post ->
        pre = code (found_block 0) /\ post = []).
Proof.
  apply (find_uml_blocks_fenced ascii_tables doc_two_dialects (found_block 0)).
  - vm_compute. left. reflexivity.
  - reflexivity.
Defined.

Lemma find_uml_blocks_startend_witness :
  code (found_block 1) = original (found_block 1) /\
  exists w1 mid w2,
    original (found_block 1) = w1 ++ mid ++ w2 /\
    word_matches (startuml_chars ascii_tables) w1 /\
    word_matches (enduml_chars ascii_tables) w2 /\
    (forall j w t, j < length mid -> skipn j (mid ++ w2) = w ++ t ->
                   ~ word_matches (enduml_chars ascii_tables) w).
Proof.
  apply (find_uml_blocks_startend ascii_tables doc_two_dialects (found_block 1)).
  - vm_compute. right. left. reflexivity.
  - reflexivity.
Defined.

Lemma startend_code_is_wrapped_witness :
  ensure_wrapped ascii_ucd (code (found_block 1)) = code (found_block 1).
Proof.
  apply (startend_code_is_wrapped ascii_tables ascii_ucd doc_two_dialects (found_block 1)).
  - intros c _. reflexivity.
  - intros c _. reflexivity.
  - apply Forall_forall. intros c Hc. apply N.ltb_lt. revert c Hc.
    apply forallb_forall. reflexivity.
  - vm_compute. right. left. reflexivity.
  - reflexivity.
Defined.

Lemma find_uml_blocks_none_witness :
  find_uml_blocks ascii_tables (lit "# Title" ++ [LF] ++ lit "no diagram here") = [].
Proof.
  apply (find_uml_blocks_none ascii_tables).
  - intros H. vm_compute in H. intuition discriminate.
  - intros H. vm_compute in H. intuition discriminate.
Defined.

(** With a long s in the opening word the start/end pattern still matches,
    but [str.lower] keeps the long s: [ensure_wrapped] does not see the
    marker and wraps the block once more. *)
Lemma long_s_block_is_wrapped_again :
  let text := lit "@" ++ [383%N] ++ lit "tartuml" ++ [LF] ++ lit "A -> B" ++ [LF] ++ lit "@enduml" in
  map code (find_uml_blocks ascii_tables text) = [text] /\
  ensure_wrapped ascii_ucd text = lit "@startuml" ++ [LF] ++ text ++ [LF] ++ lit "@enduml".
Proof. split; reflexivity. Qed.

(** ** Block normalisation, header splitting, page breaks and escaping *)

(** X8: whatever the code, what [ensure_wrapped] returns contains the code
    and, in lower case, both markers. *)
Theorem ensure_wrapped_has_markers (ucd : UCD) (code : pystr) :
  lowers_ascii ucd ->
  contains (lit "@startuml") (lower ucd (ensure_wrapped ucd code)) = true /\
  contains (lit "@enduml") (lower ucd (ensure_wrapped ucd code)) = true /\
  exists a b, ensure_wrapped ucd code = a ++ code ++ b.
Proof.
  intros Hascii. unfold ensure_wrapped.
  destruct (contains (lit "@startuml") (lower ucd code) &&
            contains (lit "@enduml") (lower ucd code)) eqn:E.
  - apply andb_true_iff in E as [E1 E2]. repeat split; try assumption.
    exists [], []. now rewrite app_nil_r.
  - destruct (wrapped_has_markers ucd Hascii code) as [H1 H2].
    repeat split; try assumption.
    exists (lit "@startuml" ++ [LF]), ([LF] ++ lit "@enduml"). now rewrite <- !app_assoc.
Qed.

Lemma ensure_wrapped_has_markers_witness :
  contains (lit "@startuml") (lower ascii_ucd (ensure_wrapped ascii_ucd (lit "Alice -> Bob")))
    = true /\
  contains (lit "@enduml") (lower ascii_ucd (ensure_wrapped ascii_ucd (lit "Alice -> Bob")))
    = true /\
  exists a b, ensure_wrapped ascii_ucd (lit "Alice -> Bob") = a ++ lit "Alice -> Bob" ++ b.
Proof.
  apply (ensure_wrapped_has_markers ascii_ucd (lit "Alice -> Bob")).
  intros c _. reflexivity.
Defined.

Lemma splitlines_crlf_opening (r : pystr) :
  splitlines ((lit "---" ++ [CR; LF]) ++ r) = (lit "---" ++ [CR; LF]) :: splitlines r.
Proof. reflexivity. Qed.

Lemma opens_header_cases (text : pystr) :
  opens_header text = true ->
  exists opening r,
    text = opening ++ r /\
    (opening = lit "---" ++ [LF] \/ opening = lit "---" ++ [CR; LF]) /\
    splitlines text = opening :: splitlines r.
Proof.
  unfold opens_header. intros H. apply orb_true_iff in H as [H|H];
    apply startswith_inv in H as [r ->]; eexists _, r; (split; [reflexivity|]).
  - split; [now left | apply splitlines_lf_opening].
  - split; [now right | apply splitlines_crlf_opening].
Qed.

Lemma lstrip_by_prefix (p : char -> bool) (s : pystr) :
  exists b, s = b ++ lstrip_by p s.
Proof. destruct (lstrip_by_split p s) as (b & H & _). now exists b. Qed.

(** What the split does with a detected header, whatever the line ends. *)
Lemma split_yaml_header_found (md_text : pystr) :
  header_detected md_text = true ->
  exists opening pre closing post,
    lstrip_char BOM md_text = opening ++ concat pre ++ closing ++ concat post /\
    (opening = lit "---" ++ [LF] \/ opening = lit "---" ++ [CR; LF]) /\
    Forall (fun l => is_header_close (strip l) = false) pre /\
    is_header_close (strip closing) = true /\
    split_yaml_header md_text = ((lit "---" ++ [LF]) ++ concat pre ++ closing, concat post).
Proof.
  unfold header_detected, split_yaml_header. cbv zeta.
  intros H. apply andb_true_iff in H as [Hopen Hscan]. rewrite Hopen.
  destruct (opens_header_cases _ Hopen) as (opening & r & Htext & Hcases & Hlines).
  rewrite Hlines in *. cbn [tl] in *.
  destruct (scan_header (splitlines r) 1 []) as [header [idx|]] eqn:E; [|discriminate].
  destruct (scan_header_found _ _ _ _ _ E) as (pre & closing & post & Hr & -> & -> & Hc & Hpre).
  exists opening, pre, closing, post. rewrite Hr, nth_middle_cons, skipn_middle_cons.
  repeat split; try assumption.
  rewrite Htext at 1. f_equal.
  rewrite <- (concat_splitlines r), Hr, concat_app. cbn [concat]. reflexivity.
Qed.

(** X9: the body that [split_yaml_header] returns is a suffix of its input:
    the split never changes or drops a character of the body. *)
Theorem split_yaml_header_body_suffix (md_text : pystr) :
  exists before, md_text = before ++ snd (split_yaml_header md_text).
Proof.
  destruct (header_detected md_text) eqn:Hd.
  - destruct (split_yaml_header_found md_text Hd)
      as (opening & pre & closing & post & Htext & _ & _ & _ & ->).
    destruct (lstrip_by_prefix (char_eqb BOM) md_text) as [b Hb].
    fold (lstrip_char BOM md_text) in Hb. rewrite Htext in Hb.
    exists (b ++ opening ++ concat pre ++ closing). cbn [snd].
    rewrite Hb at 1. now rewrite <- !app_assoc.
  - exists []. unfold header_detected, split_yaml_header in *. cbv zeta in *.
    destruct (opens_header (lstrip_char BOM md_text)); [|reflexivity].
    cbn [andb] in Hd.
    destruct (scan_header _ 1 []) as [header [idx|]]; [discriminate | reflexivity].
Qed.

(** The same, on the lines that [splitlines] gives: the closing line is the
    first line after the opening one that strips to a closing delimiter. *)
Lemma split_yaml_header_lines (md_text : pystr) :
  header_detected md_text = true ->
  exists opening pre closing post,
    splitlines (lstrip_char BOM md_text) = opening :: pre ++ closing :: post /\
    lstrip_char BOM md_text = opening ++ concat pre ++ closing ++ concat post /\
    (opening = lit "---" ++ [LF] \/ opening = lit "---" ++ [CR; LF]) /\
    Forall (fun l => is_header_close (strip l) = false) pre /\
    is_header_close (strip closing) = true /\
    split_yaml_header md_text = ((lit "---" ++ [LF]) ++ concat pre ++ closing, concat post).
Proof.
  unfold header_detected, split_yaml_header. cbv zeta.
  intros H. apply andb_true_iff in H as [Hopen Hscan]. rewrite Hopen.
  destruct (opens_header_cases _ Hopen) as (opening & r & Htext & Hcases & Hlines).
  rewrite Hlines in *. cbn [tl] in *.
  destruct (scan_header (splitlines r) 1 []) as [header [idx|]] eqn:E; [|discriminate].
  destruct (scan_header_found _ _ _ _ _ E) as (pre & closing & post & Hr & -> & -> & Hc & Hpre).
  exists opening, pre, closing, post. rewrite Hr, nth_middle_cons, skipn_middle_cons.
  repeat split; try assumption.
  rewrite Htext at 1. f_equal.
  rewrite <- (concat_splitlines r), Hr, concat_app. cbn [concat]. reflexivity.
Qed.

(** X10: when a header is detected, it ends with the first line that strips
    to [---] or [...].  The lines of the text, as [splitlines] gives them,
    are an opening line ([---] and LF or CR LF), lines [pre] none of which
    strips to a closing delimiter, a line [closing] that does, and lines
    [post]; the header returned is [---] with a line feed, then the lines
    [pre] and the line [closing] as they are in the text, and the body
    returned is the lines [post]. *)
Theorem split_yaml_header_first_close (md_text : pystr) :
  header_detected md_text = true ->
  exists opening pre closing post,
    splitlines (lstrip_char BOM md_text) = opening :: pre ++ closing :: post /\
    lstrip_char BOM md_text = opening ++ concat pre ++ closing ++ concat post /\
    (opening = lit "---" ++ [LF] \/ opening = lit "---" ++ [CR; LF]) /\
    Forall (fun l => is_header_close (strip l) = false) pre /\
    is_header_close (strip closing) = true /\
    fst (split_yaml_header md_text) = (lit "---" ++ [LF]) ++ concat pre ++ closing /\
    snd (split_yaml_header md_text) = concat post.
Proof.
  intros Hd.
  destruct (split_yaml_header_lines md_text Hd)
    as (opening & pre & closing & post & Hlines & Htext & Hopen & Hpre & Hc & ->).
  exists opening, pre, closing, post. cbn [fst snd]. repeat split; assumption.
Qed.

(** A header with two closing lines: the header ends at the first one. *)
Lemma split_yaml_header_first_close_witness :
  exists opening pre closing post,
    splitlines (lstrip_char BOM (doc_crlf ++ lit "..." ++ [LF] ++ lit "more"))
      = opening :: pre ++ closing :: post /\
    lstrip_char BOM (doc_crlf ++ lit "..." ++ [LF] ++ lit "more")
      = opening ++ concat pre ++ closing ++ concat post /\
    (opening = lit "---" ++ [LF] \/ opening = lit "---" ++ [CR; LF]) /\
    Forall (fun l => is_header_close (strip l) = false) pre /\
    is_header_close (strip closing) = true /\
    fst (split_yaml_header (doc_crlf ++ lit "..." ++ [LF] ++ lit "more"))
      = (lit "---" ++ [LF]) ++ concat pre ++ closing /\
    snd (split_yaml_header (doc_crlf ++ lit "..." ++ [LF] ++ lit "more")) = concat post.
Proof.
  apply (split_yaml_header_first_close (doc_crlf ++ lit "..." ++ [LF] ++ lit "more")).
  reflexivity.
Defined.

(** X11: [apply_page_breaks] returns the header of [split_yaml_header]
    followed by the body converted line by line: a line that is three hyphens
    between spaces and tabs becomes the directive (a line feed, [\newpage], a
    line feed), every other line stays as it is. *)
Theorem apply_page_breaks_converts_lines (md_text : pystr) :
  apply_page_breaks md_text
    = fst (split_yaml_header md_text)
        ++ join_lf (map (fun l => if is_pagebreak_line l then NEWPAGE else l)
                        (split_lf (snd (split_yaml_header md_text)))) /\
  (forall l, is_pagebreak_line l = true <->
             exists a b, l = a ++ lit "---" ++ b /\
                         forallb is_blank a = true /\ forallb is_blank b = true).
Proof.
  split.
  - apply apply_page_breaks_lines.
  - apply is_pagebreak_line_iff.
Qed.

Lemma apply_page_breaks_converts_lines_witness :
  apply_page_breaks (lit "one" ++ [LF] ++ lit " ---" ++ [TAB])
    = lit "one" ++ [LF] ++ NEWPAGE /\
  is_pagebreak_line (lit " ---" ++ [TAB]) = true.
Proof.
  destruct (apply_page_breaks_converts_lines (lit "one" ++ [LF] ++ lit " ---" ++ [TAB]))
    as [Heq Hiff].
  split.
  - rewrite Heq. reflexivity.
  - apply Hiff. exists [SPACE], [TAB]. repeat split.
Defined.

(** X12: in a text whose opening delimiter line ends in LF, the header
    region (up to and including the first closing line) comes out of
    [apply_page_breaks] as it went in, and only the lines after it are
    converted. *)
Theorem apply_page_breaks_keeps_lf_header (md_text h : pystr) :
  startswith (lit "---" ++ [LF]) (lstrip_char BOM md_text) = true ->
  header_region (lstrip_char BOM md_text) = Some h ->
  exists body,
    lstrip_char BOM md_text = h ++ body /\
    apply_page_breaks md_text = h ++ join_lf (map convert_line (split_lf body)).
Proof. apply apply_page_breaks_lf_header. Qed.

Lemma apply_page_breaks_keeps_lf_header_witness :
  exists body,
    lstrip_char BOM doc_with_bom
      = (lit "---" ++ [LF] ++ lit "title: x" ++ [LF] ++ lit "---" ++ [LF]) ++ body /\
    apply_page_breaks doc_with_bom
      = (lit "---" ++ [LF] ++ lit "title: x" ++ [LF] ++ lit "---" ++ [LF])
          ++ join_lf (map convert_line (split_lf body)).
Proof.
  apply (apply_page_breaks_keeps_lf_header doc_with_bom); reflexivity.
Defined.

Lemma escape_from_app (a b : pystr) :
  forall prev,
    escape_from prev (a ++ b) = escape_from prev a ++ escape_from (last_read prev a) b.
Proof.
  induction a as [|c a IH]; intros prev; [reflexivity|].
  cbn [app escape_from]. rewrite IH, last_read_cons, <- app_assoc. reflexivity.
Qed.

Lemma escape_from_context (p q : option char) (s : pystr) :
  p <> Some BACKSLASH -> q <> Some BACKSLASH -> escape_from p s = escape_from q s.
Proof.
  intros Hp Hq. destruct s as [|c s]; [reflexivity|]. cbn [escape_from].
  assert (H : forall x, x <> Some BACKSLASH ->
                        match x with Some y => char_eqb y BACKSLASH | None => false end = false).
  { intros [y|] Hx; [|reflexivity]. destruct (char_eqb y BACKSLASH) eqn:E; [|reflexivity].
    apply char_eqb_eq in E. congruence. }
  now rewrite (H p Hp), (H q Hq).
Qed.

(** X13: escaping a concatenation is escaping the two parts, as long as the
    first part does not end in a backslash. *)
Theorem escape_unescaped_dollars_app (a b : pystr) :
  last_read None a <> Some BACKSLASH ->
  escape_unescaped_dollars (a ++ b)
    = escape_unescaped_dollars a ++ escape_unescaped_dollars b.
Proof.
  intros Ha. unfold escape_unescaped_dollars. rewrite escape_from_app. f_equal.
  apply escape_from_context; [exact Ha | discriminate].
Qed.

Lemma escape_unescaped_dollars_app_witness :
  escape_unescaped_dollars (lit "cost: " ++ lit "$5")
    = escape_unescaped_dollars (lit "cost: ") ++ escape_unescaped_dollars (lit "$5").
Proof.
  apply (escape_unescaped_dollars_app (lit "cost: ") (lit "$5")).
  vm_compute. discriminate.
Defined.

(** ** The two drivers *)

Lemma app_one_nonempty (l : list pystr) (x : pystr) : l ++ [x] <> [].
Proof. destruct l; discriminate. Qed.


(** X15: whenever [process_uml] returns, log failures included, the rewriter
    turns what it returned into the image reference of the PNG of that
    ordinal or into a failure notice of that ordinal; a path is never built
    from an error text. *)
Theorem process_uml_replacement (W : Type) (env : Env W) (ucd : UCD)
    (log_raises : pystr -> W -> option Exn)
    (i : Z) (code_text : pystr) (plantuml_jar output_dir : Path)
    (st st' : State W) (r : RenderResult) :
  let png_file := joinpath env output_dir (lit "diagram" ++ str_of_int i ++ lit ".png") in
  process_uml_io env ucd log_raises (i, code_text, plantuml_jar, output_dir) st
    = (Normal r, st') ->
  replacement env r = image_reference (sep env) i png_file \/
  exists error_text, replacement env r = failure_notice i error_text.
Proof.
  cbv zeta.
  unfold process_uml_io, try_except, bind, exists_, write_text, run, log_print_io, when, ret.
  cbn [world calls log]. intros H.
  destruct (path_exists env _ (world st)) as [[|]|e0]; (cbv beta iota zeta in H; cbn [world calls log] in H).
  2: destruct (path_write_text env _ _ (world st)) as [[[]|e1] w1]; (cbv beta iota zeta in H; cbn [world calls log] in H).
  2: destruct (subprocess_run env _ w1) as [[cp|e2] w2]; (cbv beta iota zeta in H; cbn [world calls log] in H).
  2: destruct (truthy (strip (stdout cp))), (truthy (strip (stderr cp))),
       (negb (returncode cp =? 0)%Z); (cbv beta iota zeta in H; cbn [world calls log] in H).
  all: repeat match type of H with
         | context [match ?refused with Some _ => _ | None => _ end] =>
             destruct refused; cbv beta iota zeta in H; cbn [world calls log] in H
         end.
  all: try discriminate H.
  all: injection H as <- _.
  all: (now left) || (right; eexists; reflexivity).
Qed.

(** The renderer rejects the source while the log accepts every line: the
    document gets the notice with the stripped error text. *)
Lemma process_uml_replacement_witness :
  replacement desk_env (3%Z, false, InfoText (lit "Error line 2 in file"))
    = image_reference (sep desk_env) 3
        (joinpath desk_env (lit "diagrams") (lit "diagram" ++ str_of_int 3 ++ lit ".png")) \/
  exists error_text,
    replacement desk_env (3%Z, false, InfoText (lit "Error line 2 in file"))
      = failure_notice 3 error_text.
Proof.
  apply (process_uml_replacement Desk desk_env ascii_ucd log_accepts 3 (lit "A -> B")
           (lit "plantuml.jar") (lit "diagrams")
           (desk_start (desk "Calibri" true true false []))
           (snd (process_uml_io desk_env ascii_ucd log_accepts
                   (3%Z, lit "A -> B", lit "plantuml.jar", lit "diagrams")
                   (desk_start (desk "Calibri" true true false []))))).
  reflexivity.
Defined.

Section DriverFacts.
Variable W : Type.
Variable env : Env W.
Variables (md_path pdf_path : Path) (pandoc_exe : pystr).

Lemma font_attempts_success_pdf (pairs : list (pystr * pystr)) (w w' : W)
    (cmds : list (list pystr)) (r : option Z) :
  font_attempts env md_path pdf_path pandoc_exe pairs w cmds r w' ->
  r <> None -> path_exists env pdf_path w' = Normal true.
Proof.
  induction 1 as [w | fp rest w w' cp Hrun Hrc Hex
                    | fp rest w w' w'' cp cmds r Hrun Hfail Hrest IH]; intros Hr.
  - contradiction.
  - exact Hex.
  - now apply IH.
Qed.
End DriverFacts.

(** X16: a run of the driver with the converter on the search path launches
    between one and nine commands; when it launched fewer than nine, it
    returned 0 and the PDF is on disk.  Only the ninth invocation, the one
    without font overrides, can give a status without the file having been
    looked for. *)
Theorem run_pandoc_zero_from_fonts_means_pdf (W : Type) (env : Env W)
    (md_path pdf_path : Path) (pandoc_exe : pystr) (st st' : State W) (rc : Z) :
  (exists p, shutil_which env pandoc_exe (world st) = Some p /\ p <> []) ->
  run_pandoc_with_font_fallback env md_path pdf_path pandoc_exe st = (Normal rc, st') ->
  exists cmds,
    calls st' = calls st ++ cmds /\
    1 <= length cmds <= 9 /\
    (length cmds < 9 -> rc = 0%Z /\ path_exists env pdf_path (world st') = Normal true).
Proof.
  intros Hwhich H.
  destruct (run_pandoc_sound W env md_path pdf_path pandoc_exe st st' rc Hwhich H)
    as (cmds & Hcalls & Hfall).
  exists cmds. split; [exact Hcalls|].
  destruct Hfall as [w0 w1 cs Hattempts | w0 w1 w2 cs cp Hattempts Hrun].
  - pose proof (font_attempts_calls W env md_path pdf_path pandoc_exe _ _ _ _ _ Hattempts)
      as [_ (k & Hk & ->)].
    rewrite length_map, length_firstn. change (length font_pairs) with 8 in *.
    split; [lia|]. intros _. split; [reflexivity|].
    apply (font_attempts_success_pdf W env md_path pdf_path pandoc_exe _ _ _ _ _ Hattempts).
    discriminate.
  - pose proof (font_attempts_calls W env md_path pdf_path pandoc_exe _ _ _ _ _ Hattempts)
      as ->.
    rewrite length_app, length_map. change (length font_pairs) with 8. cbn [length].
    split; [lia|]. intros Hlt. lia.
Qed.

Lemma run_pandoc_zero_from_fonts_means_pdf_witness :
  let r := run_pandoc_with_font_fallback desk_env (lit "book_tmp.md") (lit "book.pdf")
             (lit "pandoc") (desk_start (desk "Calibri" true true true [])) in
  exists cmds,
    calls (snd r) = [] ++ cmds /\
    1 <= length cmds <= 9 /\
    (length cmds < 9 ->
     0%Z = 0%Z /\ path_exists desk_env (lit "book.pdf") (world (snd r)) = Normal true).
Proof.
  apply (run_pandoc_zero_from_fonts_means_pdf Desk desk_env (lit "book_tmp.md")
           (lit "book.pdf") (lit "pandoc") (desk_start (desk "Calibri" true true true []))).
  - eexists. split; [reflexivity | discriminate].
  - reflexivity.
Defined.



(** ** Converting page breaks twice *)

Lemma split_lf_nonempty (s : pystr) : split_lf s <> [].
Proof. exact (proj1 (split_lf_shape s)). Qed.

Lemma split_lf_app_lf (a b : pystr) :
  split_lf (a ++ LF :: b) = split_lf a ++ split_lf b.
Proof.
  induction a as [|c a IH]; [reflexivity|].
  cbn [app split_lf]. rewrite IH. destruct (char_eqb c LF); [reflexivity|].
  pose proof (split_lf_nonempty a) as Ha.
  destruct (split_lf a) as [|l ls]; [contradiction | reflexivity].
Qed.

Lemma split_lf_line (l : pystr) : ~ In LF l -> split_lf l = [l].
Proof.
  induction l as [|c l IH]; intros H; [reflexivity|].
  cbn [split_lf]. destruct (char_eqb c LF) eqn:E.
  - apply char_eqb_eq in E. subst. exfalso. apply H. now left.
  - rewrite IH; [reflexivity|]. intros Hin. apply H. now right.
Qed.

Lemma split_lf_join (ls : list pystr) :
  ls <> [] -> split_lf (join_lf ls) = concat (map split_lf ls).
Proof.
  induction ls as [|l ls IH]; intros Hne; [contradiction|].
  destruct ls as [|l' ls].
  - cbn. now rewrite app_nil_r.
  - change (join_lf (l :: l' :: ls)) with (l ++ LF :: join_lf (l' :: ls)).
    rewrite split_lf_app_lf, IH by discriminate. reflexivity.
Qed.

Lemma join_lf_app (a b : list pystr) :
  a <> [] -> b <> [] -> join_lf (a ++ b) = join_lf a ++ LF :: join_lf b.
Proof.
  induction a as [|l a IH]; intros Ha Hb; [contradiction|].
  destruct a as [|l' a].
  - destruct b as [|x b]; [contradiction | reflexivity].
  - change (join_lf ((l :: l' :: a) ++ b)) with (l ++ LF :: join_lf ((l' :: a) ++ b)).
    rewrite IH by (discriminate || assumption).
    change (join_lf (l :: l' :: a)) with (l ++ LF :: join_lf (l' :: a)).
    now rewrite <- app_assoc.
Qed.

Lemma concat_split_nonempty (ls : list pystr) :
  ls <> [] -> concat (map split_lf ls) <> [].
Proof.
  destruct ls as [|l ls]; [contradiction|]. intros _. cbn [map concat].
  pose proof (split_lf_nonempty l). destruct (split_lf l); [contradiction | discriminate].
Qed.

Lemma join_lf_concat_split (ls : list pystr) :
  ls <> [] -> join_lf (concat (map split_lf ls)) = join_lf ls.
Proof.
  induction ls as [|l ls IH]; intros Hne; [contradiction|].
  destruct ls as [|l' ls].
  - cbn [map concat]. rewrite app_nil_r. exact (proj2 (proj2 (split_lf_shape l))).
  - cbn [map concat]. rewrite join_lf_app.
    + cbn [map concat] in IH. rewrite IH by discriminate.
      now rewrite (proj2 (proj2 (split_lf_shape l))).
    + apply split_lf_nonempty.
    + apply (concat_split_nonempty (l' :: ls)). discriminate.
Qed.

(** The lines of a converted line are not converted again. *)
Lemma convert_line_settled (l : pystr) :
  ~ In LF l -> map convert_line (split_lf (convert_line l)) = split_lf (convert_line l).
Proof.
  intros Hl. unfold convert_line at 2 3. destruct (is_pagebreak_line l) eqn:E.
  - reflexivity.
  - rewrite (split_lf_line l Hl). cbn [map]. unfold convert_line. now rewrite E.
Qed.

Lemma sub_pagebreak_twice (body : pystr) :
  sub_pagebreak None 0 (sub_pagebreak None 0 body) = sub_pagebreak None 0 body.
Proof.
  rewrite (sub_pagebreak_lines body).
  destruct (split_lf_shape body) as (Hne & Hall & _).
  set (ls := split_lf body) in *.
  assert (Hne' : map convert_line ls <> []) by (destruct ls; [contradiction | discriminate]).
  rewrite sub_pagebreak_lines, split_lf_join by exact Hne'.
  assert (Hmap : map convert_line (concat (map split_lf (map convert_line ls)))
                 = concat (map split_lf (map convert_line ls))).
  { clear Hne Hne'. induction Hall as [|l ls Hl _ IH]; [reflexivity|].
    cbn [map concat]. rewrite map_app, IH, (convert_line_settled l Hl). reflexivity. }
  rewrite Hmap. now apply join_lf_concat_split.
Qed.

Lemma opens_header_hyphen (c : char) (r : pystr) :
  opens_header (c :: r) = true -> c = 45%N.
Proof.
  unfold opens_header. intros H.
  apply orb_true_iff in H as [H|H]; apply startswith_inv in H as [t Ht];
    now injection Ht.
Qed.

(** X18: for a document that starts with neither a hyphen nor a byte-order
    mark, so that no header is looked for, converting the page breaks a
    second time changes nothing. *)
Theorem apply_page_breaks_twice (md_text : pystr) :
  (forall c r, md_text = c :: r -> c <> 45%N /\ c <> BOM) ->
  apply_page_breaks (apply_page_breaks md_text) = apply_page_breaks md_text.
Proof.
  assert (Hplain : forall t, (forall c r, t = c :: r -> c <> 45%N /\ c <> BOM) ->
                             apply_page_breaks t = sub_pagebreak None 0 t).
  { intros t Ht. unfold apply_page_breaks, split_yaml_header. cbv zeta.
    destruct t as [|c r]; [reflexivity|].
    destruct (Ht c r eq_refl) as [Hh Hb].
    unfold lstrip_char. cbn [lstrip_by].
    destruct (char_eqb BOM c) eqn:E; [apply char_eqb_eq in E; congruence|].
    destruct (opens_header (c :: r)) eqn:Eo; [|reflexivity].
    apply opens_header_hyphen in Eo. contradiction. }
  intros H. rewrite (Hplain md_text H), Hplain; [apply sub_pagebreak_twice|].
  intros c r Hout. destruct md_text as [|x s]; [discriminate|].
  destruct (H x s eq_refl) as [Hh Hb].
  cbn [sub_pagebreak at_line_start] in Hout.
  destruct (match_pagebreak (x :: s)).
  - injection Hout as <- _. split; discriminate.
  - injection Hout as <- _. now split.
Qed.

Lemma apply_page_breaks_twice_witness :
  apply_page_breaks (apply_page_breaks (lit "one" ++ [LF] ++ lit " --- " ++ [LF] ++ lit "two"))
    = apply_page_breaks (lit "one" ++ [LF] ++ lit " --- " ++ [LF] ++ lit "two").
Proof.
  apply (apply_page_breaks_twice (lit "one" ++ [LF] ++ lit " --- " ++ [LF] ++ lit "two")).
  intros c r [= <- _]. split; discriminate.
Defined.

(** ** A fenced block is found *)

Lemma matcher_literal_fail (tb : ReTables) (l : pystr) (r : Regex) (k : Cont) :
  forall prev t pos marks,
    startswith l t = false ->
    matcher tb (map Chr (map char_eqb l) ++ r) k prev t pos marks = None.
Proof.
  induction l as [|c l IH]; intros prev t pos marks H; [discriminate|].
  destruct t as [|x t]; [reflexivity|]. cbn [map app matcher]. cbn [startswith] in H.
  destruct (char_eqb c x); [|reflexivity]. now apply IH.
Qed.

Lemma star_greedy_complete (p : char -> bool) (k : Cont) (a : pystr) :
  forall prev s' pos marks x,
    forallb p a = true ->
    k (last_read prev a) s' (pos + length a) marks = Some x ->
    (forall c t, s' = c :: t -> p c = false) ->
    star_greedy p k prev (a ++ s') pos marks = Some x.
Proof.
  induction a as [|c a IH]; intros prev s' pos marks x Ha Hk Hstop.
  - cbn in Hk. rewrite Nat.add_0_r in Hk. cbn [app].
    destruct s' as [|y t]; cbn [star_greedy]; [exact Hk|].
    now rewrite (Hstop y t eq_refl).
  - cbn [forallb] in Ha. apply andb_true_iff in Ha as [Hc Ha].
    cbn [app star_greedy]. rewrite Hc.
    rewrite (IH (Some c) s' (S pos) marks x Ha); [reflexivity | | exact Hstop].
    rewrite last_read_cons in Hk. cbn [length] in Hk.
    now replace (S pos + length a) with (pos + S (length a)) by lia.
Qed.

Lemma star_lazy_complete (p : char -> bool) (k : Cont) (a : pystr) :
  forall prev s' pos marks x,
    forallb p a = true ->
    (forall j, j < length a ->
               k (last_read prev (firstn j a)) (skipn j (a ++ s')) (pos + j) marks = None) ->
    k (last_read prev a) s' (pos + length a) marks = Some x ->
    star_lazy p k prev (a ++ s') pos marks = Some x.
Proof.
  induction a as [|c a IH]; intros prev s' pos marks x Ha Hnone Hk.
  - cbn in Hk. rewrite Nat.add_0_r in Hk. cbn [app].
    destruct s' as [|y t]; cbn [star_lazy]; now rewrite Hk.
  - cbn [forallb] in Ha. apply andb_true_iff in Ha as [Hc Ha].
    cbn [app star_lazy].
    pose proof (Hnone 0 ltac:(cbn; lia)) as H0. cbn in H0. rewrite Nat.add_0_r in H0.
    rewrite H0, Hc. apply IH; [exact Ha | |].
    + intros j Hj. specialize (Hnone (S j) ltac:(cbn; lia)).
      cbn [firstn skipn app] in Hnone. rewrite last_read_cons in Hnone.
      now replace (S pos + j) with (pos + S j) by lia.
    + rewrite last_read_cons in Hk. cbn [length] in Hk.
      now replace (S pos + length a) with (pos + S (length a)) by lia.
Qed.

(** No match of the fenced pattern starts at a character that is not a
    backtick. *)
Lemma fenced_needs_backtick (tb : ReTables) (prev : option char) (c : char) (s : pystr)
    (pos : nat) :
  c <> 96%N -> match_at tb (RE_FENCED tb) prev (c :: s) pos = None.
Proof.
  intros Hc. unfold match_at. rewrite re_fenced_shape.
  change (matcher tb (Mark :: ?r) accept prev (c :: s) pos [])
    with (matcher tb r accept prev (c :: s) pos [pos]).
  rewrite matcher_literal_fail; [reflexivity|].
  destruct (startswith (lit "```") (c :: s)) eqn:E; [|reflexivity].
  apply startswith_inv in E as [t Ht]. injection Ht as Hc' _. contradiction.
Qed.

Lemma finditer_fenced_skip (tb : ReTables) (pre : pystr) :
  ~ In 96%N pre ->
  forall prev pos s,
    finditer_from tb (RE_FENCED tb) prev pos 0 (pre ++ s)
      = finditer_from tb (RE_FENCED tb) (last_read prev pre) (pos + length pre) 0 s.
Proof.
  induction pre as [|c pre IH]; intros Hpre prev pos s.
  - cbn. now rewrite Nat.add_0_r.
  - cbn [app finditer_from]. rewrite fenced_needs_backtick by (intros ->; apply Hpre; now left).
    rewrite IH by (intros H; apply Hpre; now right).
    rewrite last_read_cons. cbn [length]. f_equal. lia.
Qed.

Lemma ci_char_self (tb : ReTables) (p : char) :
  lowers_ascii_simple tb -> (p < 128)%N -> ascii_lower p = p -> ci_char tb p p = true.
Proof.
  intros Htb Hp Hl. unfold ci_char. rewrite (Htb p Hp), Hl, char_eqb_refl. reflexivity.
Qed.

Lemma plantuml_matches_itself (tb : ReTables) :
  lowers_ascii_simple tb -> word_matches (plantuml_chars tb) (lit "plantuml").
Proof.
  intros Htb. unfold word_matches, plantuml_chars.
  repeat (constructor; [apply ci_char_self; [exact Htb | reflexivity | reflexivity]|]).
  constructor.
Qed.

(** No closing fence starts inside a code without backticks. *)
Lemma no_fence_inside (code rest : pystr) (j : nat) :
  ~ In 96%N code -> j < length code ->
  startswith ([LF] ++ lit "```") (skipn j (code ++ ([LF] ++ lit "```") ++ rest)) = false.
Proof.
  intros Hcode Hj. rewrite skipn_app. replace (j - length code) with 0 by lia.
  cbn [skipn].
  assert (Hin : forall c, In c (skipn j code) -> c <> 96%N).
  { intros c Hc ->. apply Hcode. now apply (in_skipn j). }
  destruct (startswith _ _) eqn:Es; [|reflexivity]. exfalso.
  apply startswith_inv in Es as [t Ht].
  destruct (skipn j code) as [|c1 [|c2 u]] eqn:E.
  - apply (f_equal (@length char)) in E. rewrite length_skipn in E. cbn in E. lia.
  - discriminate Ht.
  - injection Ht as _ Hc2 _. apply (Hin c2); [right; now left | exact Hc2].
Qed.

Lemma literal_matches_itself (l : pystr) : word_matches (map char_eqb l) l.
Proof. unfold word_matches. induction l; constructor; [apply char_eqb_refl | assumption]. Qed.

Lemma forallb_not_lf (info : pystr) : ~ In LF info -> forallb not_lf info = true.
Proof.
  induction info as [|c info IH]; intros H; [reflexivity|]. cbn [forallb].
  rewrite IH by (intros Hin; apply H; now right). unfold not_lf.
  destruct (char_eqb c LF) eqn:E; [|reflexivity].
  apply char_eqb_eq in E. exfalso. apply H. now left.
Qed.

Lemma forallb_any (s : pystr) : forallb any_char s = true.
Proof. induction s; [reflexivity | exact IHs]. Qed.

(** The fenced pattern at the start of a plain fenced block. *)
Lemma fenced_match_here (tb : ReTables) (prev : option char) (info code post : pystr)
    (pos : nat) :
  lowers_ascii_simple tb -> ~ In LF info -> ~ In 96%N code ->
  exists m,
    match_at tb (RE_FENCED tb) prev
      (lit "```" ++ lit "plantuml" ++ info ++ [LF] ++ code ++ ([LF] ++ lit "```") ++ post) pos
      = Some m /\
    m_start m = pos /\
    m_end m = pos + (12 + length info) + length code + 4 /\
    group_start 2 m = pos + (12 + length info) /\
    group_end 2 m = pos + (12 + length info) + length code.
Proof.
  intros Htb Hinfo Hcode. unfold match_at. rewrite re_fenced_shape.
  change (matcher tb (Mark :: ?r) accept prev ?s pos [])
    with (matcher tb r accept prev s pos [pos]).
  rewrite (matcher_chrs_complete tb _ _ _ (lit "```")) by apply literal_matches_itself.
  change (matcher tb (StarGreedy is_whitespace :: ?r) accept)
    with (star_greedy is_whitespace (matcher tb r accept)).
  assert (Hmatch : exists e,
    e = pos + (12 + length info) + length code + 4 /\
    star_greedy is_whitespace
      (matcher tb
         (map Chr (plantuml_chars tb) ++
          StarGreedy not_lf :: map Chr [char_eqb LF] ++
          Mark :: Mark :: StarLazy any_char :: Mark :: Mark
          :: map Chr (map char_eqb ([LF] ++ lit "```")) ++ [Mark]) accept)
      (last_read prev (lit "```"))
      (lit "plantuml" ++ info ++ [LF] ++ code ++ ([LF] ++ lit "```") ++ post)
      (pos + length (lit "```")) [pos]
    = Some (e, [pos; pos + (12 + length info); pos + (12 + length info);
                pos + (12 + length info) + length code;
                pos + (12 + length info) + length code; e])).
  { eexists. split; [reflexivity|].
    apply (star_greedy_complete is_whitespace _ [] _
             (lit "plantuml" ++ info ++ [LF] ++ code ++ ([LF] ++ lit "```") ++ post));
      [reflexivity | | intros c t [= <- _]; reflexivity].
    rewrite (matcher_chrs_complete tb _ _ _ (lit "plantuml"))
      by now apply plantuml_matches_itself.
    change (matcher tb (StarGreedy not_lf :: ?r) accept)
      with (star_greedy not_lf (matcher tb r accept)).
    apply star_greedy_complete;
      [now apply forallb_not_lf | | intros c t [= <- _]; reflexivity].
    rewrite (matcher_chrs_complete tb _ _ _ [LF]) by apply (literal_matches_itself [LF]).
    change (matcher tb (Mark :: Mark :: StarLazy any_char :: ?r) accept ?p ?t ?n ?ms)
      with (star_lazy any_char (matcher tb r accept) p t n ((ms ++ [n]) ++ [n])).
    apply star_lazy_complete; [apply forallb_any | |].
    - intros j Hj.
      change (matcher tb (Mark :: Mark :: ?r) accept ?p ?t ?n ?ms)
        with (matcher tb r accept p t n ((ms ++ [n]) ++ [n])).
      apply matcher_literal_fail. now apply no_fence_inside.
    - change (matcher tb (Mark :: Mark :: ?r) accept ?p ?t ?n ?ms)
        with (matcher tb r accept p t n ((ms ++ [n]) ++ [n])).
      rewrite (matcher_chrs_complete tb _ _ _ ([LF] ++ lit "```"))
        by apply literal_matches_itself.
      cbn [matcher accept app length last_read rev].
      rewrite ?length_app. cbn [length].
      change (length (lit "```")) with 3. change (length (lit "plantuml")) with 8.
      unfold accept.
      replace (pos + 3 + 0 + 8 + length info + 1) with (pos + (12 + length info)) by lia.
      reflexivity. }
  destruct Hmatch as (e & -> & Hm). rewrite Hm.
  eexists. split; [reflexivity|]. unfold group_start, group_end. cbn. repeat split; lia.
Qed.

Lemma finditer_from_head (tb : ReTables) (r : Regex) (prev : option char) (s : pystr)
    (pos : nat) (m : Match) :
  match_at tb r prev s pos = Some m -> In m (finditer_from tb r prev pos 0 s).
Proof.
  intros H. destruct s as [|c s]; cbn [finditer_from]; rewrite H; now left.
Qed.

(** X19: a fenced block that opens with three backticks and [plantuml] is
    found, with the text between its opening line and its closing fence as
    code, when no backtick comes before it and none lies in its code. *)
Theorem find_uml_blocks_finds_fenced (tb : ReTables) (pre info code post : pystr) :
  lowers_ascii_simple tb ->
  ~ In 96%N pre ->
  ~ In LF info ->
  ~ In 96%N code ->
  In {| span := (length pre, length pre + (12 + length info) + length code + 4);
        original := (lit "```plantuml" ++ info ++ [LF]) ++ code ++ [LF] ++ lit "```";
        code := code;
        kind := Fenced |}
     (find_uml_blocks tb
        (pre ++ (lit "```plantuml" ++ info ++ [LF]) ++ code ++ ([LF] ++ lit "```") ++ post)).
Proof.
  intros Htb Hpre Hinfo Hcode.
  set (opening := lit "```plantuml" ++ info ++ [LF]).
  set (text := pre ++ opening ++ code ++ ([LF] ++ lit "```") ++ post).
  assert (Hlen : length opening = 12 + length info).
  { unfold opening. rewrite !length_app. cbn. lia. }
  destruct (fenced_match_here tb (last_read None pre) info code post (0 + length pre)
              Htb Hinfo Hcode) as (m & Hm & Hs & He & Hgs & Hge).
  apply (Permutation_in _ (Permutation_sym (sort_by_start_perm _))).
  apply in_or_app. left. apply in_map_iff. exists m. split.
  - change (0 + length pre) with (length pre) in *.
    unfold fenced_block, group. rewrite Hs, He, Hgs, Hge. f_equal.
    + rewrite <- Hlen.
      replace (length pre + length opening + length code + 4)
        with (length pre + length (opening ++ code ++ [LF] ++ lit "```"))
        by (rewrite !length_app; cbn; lia).
      apply (slice_app _ _ _ _ post); [|reflexivity].
      unfold text. rewrite skipn_length_app. now rewrite <- !app_assoc.
    + rewrite <- Hlen.
      apply (slice_app _ _ _ _ (([LF] ++ lit "```") ++ post)); [|reflexivity].
      replace (length pre + length opening) with (length (pre ++ opening))
        by (rewrite length_app; lia).
      unfold text. rewrite (app_assoc pre). apply skipn_length_app.
  - unfold finditer, text. rewrite finditer_fenced_skip by exact Hpre.
    apply finditer_from_head.
    replace (opening ++ code ++ ([LF] ++ lit "```") ++ post)
      with (lit "```" ++ lit "plantuml" ++ info ++ [LF] ++ code ++ ([LF] ++ lit "```") ++ post)
      by (unfold opening; rewrite <- !app_assoc; reflexivity).
    exact Hm.
Qed.

Lemma find_uml_blocks_finds_fenced_witness :
  In {| span := (4, 4 + (12 + 0) + 6 + 4);
        original := (lit "```plantuml" ++ [] ++ [LF]) ++ lit "A -> B" ++ [LF] ++ lit "```";
        code := lit "A -> B";
        kind := Fenced |}
     (find_uml_blocks ascii_tables
        ((lit "# T" ++ [LF]) ++ (lit "```plantuml" ++ [] ++ [LF]) ++ lit "A -> B"
           ++ ([LF] ++ lit "```") ++ [LF])).
Proof.
  apply (find_uml_blocks_finds_fenced ascii_tables (lit "# T" ++ [LF]) [] (lit "A -> B") [LF]).
  - intros c _. reflexivity.
  - intros H. vm_compute in H. intuition discriminate.
  - intros H. exact H.
  - intros H. vm_compute in H. intuition discriminate.
Defined.
